(* Verification of the orientation controller and ambient lighting state of
   SunPatch (src/src/App.jsx): the sun-direction update closure, the per-frame
   tracking / demo ("spin") step of SolarPanelModel, and the lighting update
   closure of App.  The three.js helpers these call (MathUtils.degToRad,
   MathUtils.clamp, Vector3.normalize, Quaternion.setFromEuler, multiply,
   angleTo, slerp, rotateTowards) are embedded from the three.js sources.
   Further sections embed the panel-mode button of App, frameCameraToObject
   and the FitOnceOnMount effect (with Box3.isEmpty / getSize / getCenter),
   applyRealisticMaterials (with Object3D.traverse) and
   makeBrushedWithLinesTexture (as the list of its 2D-context calls).

   JavaScript numbers are modelled through the interface [JSNumber] below.
   Two instances are given:
   - [R]: idealised arithmetic on the reals, used for the functional claims;
   - [jsval]: the reals extended with NaN, with IEEE NaN propagation
     (every arithmetic operation with a NaN operand is NaN, every ordered
     comparison and === with NaN is false, NaN is falsy). *)

From Stdlib Require Import Reals Lra Lia String Bool.
Open Scope R_scope.

(* ------------------------------------------------------------------------- *)
(** * JavaScript numbers *)

Class JSNumber (N : Type) := {
  js_lit : R -> N;                 (* a numeric literal or Math constant *)
  js_add : N -> N -> N;
  js_sub : N -> N -> N;
  js_mul : N -> N -> N;
  js_div : N -> N -> N;
  js_neg : N -> N;
  js_sin : N -> N;                 (* Math.sin *)
  js_cos : N -> N;                 (* Math.cos *)
  js_sqrt : N -> N;                (* Math.sqrt *)
  js_acos : N -> N;                (* Math.acos *)
  js_abs : N -> N;                 (* Math.abs *)
  js_atan2 : N -> N -> N;          (* Math.atan2(y, x) *)
  js_hypot : N -> N -> N;          (* Math.hypot(a, b) *)
  js_min : N -> N -> N;            (* Math.min *)
  js_max : N -> N -> N;            (* Math.max *)
  js_lt : N -> N -> bool;          (* a < b *)
  js_le : N -> N -> bool;          (* a <= b *)
  js_eqb : N -> N -> bool;         (* a === b *)
  js_truthy : N -> bool            (* ToBoolean *)
}.
Arguments js_lit {N _} _%_R.

Declare Scope js_scope.
Delimit Scope js_scope with js.
Infix "+" := js_add : js_scope.
Infix "-" := js_sub : js_scope.
Infix "*" := js_mul : js_scope.
Infix "/" := js_div : js_scope.
Notation "- x" := (js_neg x) : js_scope.
Infix "<?" := js_lt (at level 70) : js_scope.
Infix "<=?" := js_le (at level 70) : js_scope.
Infix "===" := js_eqb (at level 70) : js_scope.
Notation "# r" := (js_lit r%R) (at level 1, format "# r") : js_scope.

(** Math.atan2 on the reals (the sign of zero is not modelled). *)
Definition Ratan2 (y x : R) : R :=
  if Rlt_dec 0 x then atan (y / x)
  else if Rlt_dec x 0 then
    (if Rle_dec 0 y then atan (y / x) + PI else atan (y / x) - PI)
  else if Rlt_dec 0 y then PI / 2
  else if Rlt_dec y 0 then - (PI / 2)
  else 0.

Definition Rltb (x y : R) : bool := if Rlt_dec x y then true else false.
Definition Rleb (x y : R) : bool := if Rle_dec x y then true else false.
Definition Reqb (x y : R) : bool := if Req_EM_T x y then true else false.

(** Idealised arithmetic.  On the paths the claims follow no division by
    zero, square root of a negative number or arccosine outside [-1, 1]
    happens, so these agree with IEEE doubles up to rounding. *)
#[global] Instance JSNumber_R : JSNumber R := {
  js_lit r := r;
  js_add := Rplus; js_sub := Rminus; js_mul := Rmult; js_div := Rdiv;
  js_neg := Ropp;
  js_sin := sin; js_cos := cos; js_sqrt := sqrt; js_acos := acos;
  js_abs := Rabs;
  js_atan2 := Ratan2;
  js_hypot a b := sqrt (a * a + b * b);
  js_min := Rmin; js_max := Rmax;
  js_lt := Rltb; js_le := Rleb; js_eqb := Reqb;
  js_truthy x := negb (Reqb x 0)
}.

(** Numbers with NaN.  Finite results are reals; a division by zero, a square
    root of a negative number and an arccosine outside [-1, 1] give NaN
    (IEEE gives NaN for the last two; the infinities are not modelled). *)
Inductive jsval := JNum (r : R) | JNaN.

Definition lift1 (f : R -> R) (a : jsval) : jsval :=
  match a with JNum x => JNum (f x) | JNaN => JNaN end.
Definition lift2 (f : R -> R -> R) (a b : jsval) : jsval :=
  match a, b with JNum x, JNum y => JNum (f x y) | _, _ => JNaN end.
Definition cmp2 (f : R -> R -> bool) (a b : jsval) : bool :=
  match a, b with JNum x, JNum y => f x y | _, _ => false end.

#[global] Instance JSNumber_jsval : JSNumber jsval := {
  js_lit r := JNum r;
  js_add := lift2 Rplus; js_sub := lift2 Rminus; js_mul := lift2 Rmult;
  js_div a b :=
    match a, b with
    | JNum x, JNum y => if Reqb y 0 then JNaN else JNum (x / y)
    | _, _ => JNaN
    end;
  js_neg := lift1 Ropp;
  js_sin := lift1 sin; js_cos := lift1 cos;
  js_sqrt a := match a with
               | JNum x => if Rltb x 0 then JNaN else JNum (sqrt x)
               | JNaN => JNaN end;
  js_acos a := match a with
               | JNum x => if Rleb (-1) x && Rleb x 1 then JNum (acos x) else JNaN
               | JNaN => JNaN end;
  js_abs := lift1 Rabs;
  js_atan2 := lift2 Ratan2;
  js_hypot := lift2 (fun a b => sqrt (a * a + b * b));
  js_min := lift2 Rmin; js_max := lift2 Rmax;
  js_lt := cmp2 Rltb; js_le := cmp2 Rleb; js_eqb := cmp2 Reqb;
  js_truthy a := match a with JNum x => negb (Reqb x 0) | JNaN => false end
}.

(* ------------------------------------------------------------------------- *)
(** * three.js math helpers *)

Section Three.
Context {N : Type} `{JSNumber N}.
Local Open Scope js_scope.

(** MathUtils.DEG2RAD = Math.PI / 180; degToRad(d) = d * DEG2RAD *)
Definition DEG2RAD : N := #PI / #180.
Definition degToRad (degrees : N) : N := degrees * DEG2RAD.

(** MathUtils.clamp(value, min, max) = Math.max(min, Math.min(max, value)) *)
Definition clamp (value min max : N) : N := js_max min (js_min max value).

Record Vector3 := mkVector3 { vx : N; vy : N; vz : N }.

(** Vector3.length / divideScalar / normalize *)
Definition vlength (v : Vector3) : N :=
  js_sqrt (vx v * vx v + vy v * vy v + vz v * vz v).
Definition multiplyScalar (v : Vector3) (s : N) : Vector3 :=
  mkVector3 (vx v * s) (vy v * s) (vz v * s).
Definition divideScalar (v : Vector3) (s : N) : Vector3 :=
  multiplyScalar v (#1 / s).
Definition normalize (v : Vector3) : Vector3 :=
  let l := vlength v in
  divideScalar v (if js_truthy l then l else #1).

Record Quaternion := mkQuaternion { qx : N; qy : N; qz : N; qw : N }.

(** Quaternion.setFromEuler(new Euler(x, y, z, "XYZ")) *)
Definition setFromEulerXYZ (x y z : N) : Quaternion :=
  let c1 := js_cos (x / #2) in let c2 := js_cos (y / #2) in
  let c3 := js_cos (z / #2) in
  let s1 := js_sin (x / #2) in let s2 := js_sin (y / #2) in
  let s3 := js_sin (z / #2) in
  mkQuaternion
    (s1 * c2 * c3 + c1 * s2 * s3)
    (c1 * s2 * c3 - s1 * c2 * s3)
    (c1 * c2 * s3 + s1 * s2 * c3)
    (c1 * c2 * c3 - s1 * s2 * s3).

(** Quaternion.multiplyQuaternions(a, b) *)
Definition multiplyQuaternions (a b : Quaternion) : Quaternion :=
  let qax := qx a in let qay := qy a in let qaz := qz a in let qaw := qw a in
  let qbx := qx b in let qby := qy b in let qbz := qz b in let qbw := qw b in
  mkQuaternion
    (qax * qbw + qaw * qbx + qay * qbz - qaz * qby)
    (qay * qbw + qaw * qby + qaz * qbx - qax * qbz)
    (qaz * qbw + qaw * qbz + qax * qby - qay * qbx)
    (qaw * qbw - qax * qbx - qay * qby - qaz * qbz).

(** Quaternion.dot *)
Definition qdot (a b : Quaternion) : N :=
  qx a * qx b + qy a * qy b + qz a * qz b + qw a * qw b.

(** Quaternion.angleTo(q) = 2 * Math.acos(Math.abs(clamp(this.dot(q), -1, 1))) *)
Definition angleTo (a b : Quaternion) : N :=
  #2 * js_acos (js_abs (clamp (qdot a b) (#(-1)) (#1))).

(** Number.EPSILON *)
Definition EPSILON : N := #(/ 2 ^ 52).

(** Quaternion.normalize *)
Definition qlength (q : Quaternion) : N :=
  js_sqrt (qx q * qx q + qy q * qy q + qz q * qz q + qw q * qw q).
Definition qnormalize (q : Quaternion) : Quaternion :=
  let l := qlength q in
  if l === #0 then mkQuaternion (#0) (#0) (#0) (#1)
  else let l' := #1 / l in
       mkQuaternion (qx q * l') (qy q * l') (qz q * l') (qw q * l').

(** Quaternion.slerp(qb, t), with [this] the quaternion [a]. *)
Definition slerp (a qb : Quaternion) (t : N) : Quaternion :=
  if t === #0 then a else
  if t === #1 then qb else
  let x := qx a in let y := qy a in let z := qz a in let w := qw a in
  let cosHalfTheta0 := w * qw qb + x * qx qb + y * qy qb + z * qz qb in
  (* this := -qb or this := qb *)
  let '(this, cosHalfTheta) :=
    if cosHalfTheta0 <? #0
    then (mkQuaternion (- qx qb) (- qy qb) (- qz qb) (- qw qb), - cosHalfTheta0)
    else (qb, cosHalfTheta0) in
  if #1 <=? cosHalfTheta then a else
  let sqrSinHalfTheta := #1 - cosHalfTheta * cosHalfTheta in
  if sqrSinHalfTheta <=? EPSILON then
    let s := #1 - t in
    qnormalize (mkQuaternion (s * x + t * qx this) (s * y + t * qy this)
                             (s * z + t * qz this) (s * w + t * qw this))
  else
  let sinHalfTheta := js_sqrt sqrSinHalfTheta in
  let halfTheta := js_atan2 sinHalfTheta cosHalfTheta in
  let ratioA := js_sin ((#1 - t) * halfTheta) / sinHalfTheta in
  let ratioB := js_sin (t * halfTheta) / sinHalfTheta in
  mkQuaternion (x * ratioA + qx this * ratioB) (y * ratioA + qy this * ratioB)
               (z * ratioA + qz this * ratioB) (w * ratioA + qw this * ratioB).

(** Quaternion.rotateTowards(q, step) *)
Definition rotateTowards (a q : Quaternion) (step : N) : Quaternion :=
  let angle := angleTo a q in
  if angle === #0 then a else
  let t := js_min (#1) (step / angle) in
  slerp a q t.

End Three.

Arguments Vector3 N : clear implicits.
Arguments Quaternion N : clear implicits.

(* ------------------------------------------------------------------------- *)
(** * SolarPanelModel *)

Section SolarPanelModel.
Context {N : Type} `{JSNumber N}.
Local Open Scope js_scope.

(** LIMITS *)
Record Limits := mkLimits { yawMin : N; yawMax : N; pitchMin : N; pitchMax : N }.
Definition LIMITS : Limits :=
  mkLimits (degToRad (#(-170))) (degToRad (#170))
           (degToRad (#(-5))) (degToRad (#65)).

(** The refs of the component: [sunDir], [baseQuat], and the quaternion of
    [panelRef.current] ([None] while the ref is unset). *)
Record Session := mkSession {
  sunDir : Vector3 N;
  baseQuat : Quaternion N;
  panel : option (Quaternion N)
}.

(** The body of the sun-direction [update] closure, after
    [SunCalc.getPosition] returned [azimuth] and [altitude]. *)
Definition sunDirection (azimuth altitude : N) : Vector3 N :=
  let x := js_sin azimuth * js_cos altitude in
  let y := js_sin altitude in
  let z := js_cos azimuth * js_cos altitude in
  normalize (mkVector3 x y z).

Definition updateSunDir (st : Session) (azimuth altitude : N) : Session :=
  mkSession (sunDirection azimuth altitude) (baseQuat st) (panel st).

(** Tracking branch of the frame callback: the geometric targets, the night
    test and the clamped (yaw, pitch). *)
Definition yawTarget (dir : Vector3 N) : N := js_atan2 (vx dir) (vz dir).
Definition pitchTarget (dir : Vector3 N) : N :=
  js_atan2 (vy dir) (js_hypot (vx dir) (vz dir)).
Definition isNight (dir : Vector3 N) : bool := vy dir <? #0.

Definition trackingYawPitch (dir : Vector3 N) : N * N :=
  let yaw := clamp (yawTarget dir) (yawMin LIMITS) (yawMax LIMITS) in
  let pitch := if isNight dir
               then clamp (degToRad (#5)) (pitchMin LIMITS) (pitchMax LIMITS)
               else clamp (pitchTarget dir) (pitchMin LIMITS) (pitchMax LIMITS) in
  (yaw, pitch).

(** Spin branch: the demo trajectory at elapsed time [t]. *)
Definition demoYawPitch (t : N) : N * N :=
  let T := #8 in
  let w := (#PI * #2) / T in
  let pitchDegMin := #8 in let pitchDegMax := #55 in
  let s := (js_sin (t * w) + #1) / #2 in
  let pitch := degToRad (pitchDegMin + (pitchDegMax - pitchDegMin) * s) in
  let yaw := degToRad (js_sin (t * w * #0.35) * #30) in
  (yaw, pitch).

(** The frame callback, with [mode] the component's prop and [t] the value of
    [state.clock.getElapsedTime()]. *)
Definition frame (mode : string) (t : N) (st : Session) : Session :=
  match panel st with
  | None => st
  | Some cur =>
    if String.eqb mode "spin" then
      let '(yaw, pitch) := demoYawPitch t in
      let qTilt := setFromEulerXYZ pitch yaw (#0) in
      let qFinal := multiplyQuaternions (baseQuat st) qTilt in
      mkSession (sunDir st) (baseQuat st) (Some qFinal)
    else
      let '(yaw, pitch) := trackingYawPitch (sunDir st) in
      let qDelta := setFromEulerXYZ pitch yaw (#0) in
      let qFinal := multiplyQuaternions (baseQuat st) qDelta in
      mkSession (sunDir st) (baseQuat st) (Some (rotateTowards cur qFinal (#0.02)))
  end.

End SolarPanelModel.

Arguments Limits N : clear implicits.
Arguments Session N : clear implicits.

(* ------------------------------------------------------------------------- *)
(** * App: lighting update *)

Section Lighting.
Context {N : Type} `{JSNumber N}.
Local Open Scope js_scope.

(** The React state written by the lighting [update] closure. *)
Record Lighting := mkLighting {
  skyPos : N * N * N;
  bgColor : string;
  envPreset : string;
  sunLightIntensity : N;
  hemiIntensity : N
}.

(** [const isDay = altitude > 0.05] *)
Definition isDay (altitude : N) : bool := #0.05 <? altitude.

Definition lightingUpdate (azimuth altitude : N) : Lighting :=
  let r := #100 in
  let x := js_sin azimuth * js_cos altitude * r in
  let y := js_sin altitude * r in
  let z := js_cos azimuth * js_cos altitude * r in
  if isDay altitude then mkLighting (x, y, z) "#b8d0ff" "sunset" (#1.8) (#0.35)
  else mkLighting (x, y, z) "#05070d" "night" (#0.5) (#0.15).

End Lighting.

Arguments Lighting N : clear implicits.

(* ========================================================================= *)
(** * Facts about the real instance *)

Module RealFacts.

Lemma Rltb_true x y : Rltb x y = true <-> x < y.
Proof. unfold Rltb; destruct (Rlt_dec x y); split; congruence || tauto. Qed.

Lemma Rltb_false x y : Rltb x y = false <-> ~ x < y.
Proof. unfold Rltb; destruct (Rlt_dec x y); split; congruence || tauto. Qed.

Lemma Rleb_true x y : Rleb x y = true <-> x <= y.
Proof. unfold Rleb; destruct (Rle_dec x y); split; congruence || tauto. Qed.

Lemma Reqb_true x y : Reqb x y = true <-> x = y.
Proof. unfold Reqb; destruct (Req_EM_T x y); split; congruence || tauto. Qed.

Lemma clamp_R v lo hi : clamp v lo hi = Rmax lo (Rmin hi v).
Proof. reflexivity. Qed.

Lemma clamp_bounds v lo hi : lo <= hi -> lo <= clamp v lo hi <= hi.
Proof.
  intros Hle; rewrite clamp_R.
  unfold Rmax, Rmin; repeat destruct Rle_dec; lra.
Qed.

Lemma clamp_in v lo hi : lo <= v <= hi -> clamp v lo hi = v.
Proof.
  intros Hv; rewrite clamp_R.
  unfold Rmax, Rmin; repeat destruct Rle_dec; lra.
Qed.

Lemma degToRad_R d : degToRad d = d * (PI / 180).
Proof. reflexivity. Qed.

Lemma PI_gt_3 : 3 < PI.
Proof. pose proof PI2_3_2; lra. Qed.

(** sin^2 a cos^2 h + sin^2 h + cos^2 a cos^2 h = 1 *)
Lemma sphere_identity a h :
  sin a * cos h * (sin a * cos h) + sin h * sin h + cos a * cos h * (cos a * cos h) = 1.
Proof.
  pose proof (sin2_cos2 a) as Ha; pose proof (sin2_cos2 h) as Hh.
  unfold Rsqr in *. nra.
Qed.

Lemma PI_gt_3046 : 3.0462 < PI.
Proof.
  pose proof (PI_ineq 5) as [H _].
  unfold sum_f_R0, tg_alt, PI_tg in H. simpl in H.
  lra.
Qed.

Lemma sunDirection_R a h :
  sunDirection a h = mkVector3 (sin a * cos h) (sin h) (cos a * cos h).
Proof.
  assert (Hl : vlength (mkVector3 (sin a * cos h) (sin h) (cos a * cos h)) = 1).
  { unfold vlength; cbn. rewrite sphere_identity. apply sqrt_1. }
  unfold sunDirection, normalize. cbn -[vlength sqrt sin cos]. rewrite Hl.
  unfold divideScalar, multiplyScalar; cbn.
  replace (negb (Reqb 1 0)) with true
    by (unfold Reqb; destruct Req_EM_T; [lra | reflexivity]).
  f_equal; field.
Qed.

Lemma Ratan2_pos y x : 0 < x -> Ratan2 y x = atan (y / x).
Proof. intros Hx; unfold Ratan2; destruct Rlt_dec; [reflexivity | lra]. Qed.

End RealFacts.
Import RealFacts.

(* ========================================================================= *)
(** * C1: the sun-direction update *)

(** C1: for every azimuth [a] and altitude [h], the update closure stores the
    vector (sin a cos h, sin h, cos a cos h), of norm 1, and changes no other
    part of the component's state. *)
Theorem updateSunDir_unit_vector (st : Session R) (a h : R) :
  let st' := updateSunDir st a h in
  sunDir st' = mkVector3 (sin a * cos h) (sin h) (cos a * cos h) /\
  vlength (sunDir st') = 1 /\
  baseQuat st' = baseQuat st /\ panel st' = panel st.
Proof.
  cbn zeta; unfold updateSunDir; cbn [sunDir baseQuat panel].
  rewrite sunDirection_R. repeat split.
  unfold vlength; cbn. rewrite sphere_identity. apply sqrt_1.
Qed.

(* ========================================================================= *)
(** * C3: the tracking target lies within the mechanical limits *)

Lemma LIMITS_R :
  LIMITS = mkLimits (-170 * (PI / 180)) (170 * (PI / 180))
                    (-5 * (PI / 180)) (65 * (PI / 180)).
Proof. reflexivity. Qed.

(** C3: for every sun direction (the overhead case [hypot(x, z) = 0]
    included), the clamped yaw lies in [yawMin, yawMax] and the clamped pitch,
    from the stow angle or from the geometric target, lies in
    [pitchMin, pitchMax]. *)
Theorem trackingYawPitch_within_limits (dir : Vector3 R) :
  let '(yaw, pitch) := trackingYawPitch dir in
  yawMin LIMITS <= yaw <= yawMax LIMITS /\
  pitchMin LIMITS <= pitch <= pitchMax LIMITS.
Proof.
  pose proof PI_RGT_0.
  unfold trackingYawPitch.
  split.
  - apply clamp_bounds. rewrite LIMITS_R; cbn; lra.
  - destruct (isNight dir); apply clamp_bounds; rewrite LIMITS_R; cbn; lra.
Qed.

(* ========================================================================= *)
(** * C8: the lighting presets *)

Lemma isDay_R h : isDay h = Rltb 0.05 h.
Proof. reflexivity. Qed.

Definition dayPreset (x : R * R * R) : Lighting R :=
  mkLighting x "#b8d0ff" "sunset" 1.8 0.35.
Definition nightPreset (x : R * R * R) : Lighting R :=
  mkLighting x "#05070d" "night" 0.5 0.15.

(** The claim as stated: the flip happens between any h1 < 0.05 <= h2.  At
    h2 = 0.05 the code still classifies night. *)
Lemma isDay_boundary_counterexample :
  ~ (forall h1 h2 : R, h1 < 0.05 <= h2 ->
       isDay h1 = false /\ isDay h2 = true).
Proof.
  intros Hall.
  destruct (Hall 0 0.05) as [_ Hday]; [lra |].
  rewrite isDay_R in Hday. apply Rltb_true in Hday. lra.
Qed.

(** C8 (amended): the lighting update selects the day preset (background
    #b8d0ff, sun intensity 1.8, ambient 0.35) exactly when h > 0.05 and the
    night preset (#05070d, 0.5, 0.15) otherwise, with nothing in between;
    the classification is monotone in h, and for h1 <= 0.05 < h2 it is night
    at h1 and day at h2. *)
Theorem lightingUpdate_day_night (a h h1 h2 : R) :
  let pos := (sin a * cos h * 100, sin h * 100, cos a * cos h * 100) in
  lightingUpdate a h = (if Rltb 0.05 h then dayPreset pos else nightPreset pos) /\
  (isDay h = true <-> 0.05 < h) /\
  (h1 <= h2 -> isDay h1 = true -> isDay h2 = true) /\
  (h1 <= 0.05 < h2 -> isDay h1 = false /\ isDay h2 = true).
Proof.
  cbn zeta. rewrite !isDay_R. split; [| split; [| split]].
  - unfold lightingUpdate. rewrite isDay_R. destruct (Rltb 0.05 h); reflexivity.
  - apply Rltb_true.
  - intros Hle Hd. apply Rltb_true in Hd. apply Rltb_true. lra.
  - intros Hb. split.
    + apply Rltb_false. lra.
    + apply Rltb_true. lra.
Qed.

(* ========================================================================= *)
(** * C2: night stow *)

Lemma stow_pitch_R :
  clamp (degToRad (js_lit 5)) (pitchMin LIMITS) (pitchMax LIMITS) = 5 * (PI / 180).
Proof.
  pose proof PI_RGT_0. rewrite LIMITS_R, degToRad_R.
  apply clamp_in; cbn; lra.
Qed.

(** C2: when the cached direction has a negative y component the pitch is
    the 5 degree stow angle, whatever x and z are, and the yaw is the clamped
    atan2(x, z); when y >= 0 the pitch is the clamped
    atan2(y, hypot(x, z)).  For a direction stored by the update closure,
    y < 0 holds exactly for the altitudes h in (-pi, 0), whatever the
    azimuth. *)
Theorem trackingYawPitch_night_stow (dir : Vector3 R) (a h : R) :
  yawTarget dir = Ratan2 (vx dir) (vz dir) /\
  pitchTarget dir = Ratan2 (vy dir) (sqrt (vx dir * vx dir + vz dir * vz dir)) /\
  (vy dir < 0 ->
     isNight dir = true /\
     trackingYawPitch dir =
       (clamp (yawTarget dir) (yawMin LIMITS) (yawMax LIMITS), 5 * (PI / 180))) /\
  (0 <= vy dir ->
     isNight dir = false /\
     trackingYawPitch dir =
       (clamp (yawTarget dir) (yawMin LIMITS) (yawMax LIMITS),
        clamp (pitchTarget dir) (pitchMin LIMITS) (pitchMax LIMITS))) /\
  (-PI < h < PI -> (vy (sunDirection a h) < 0 <-> h < 0)).
Proof.
  split; [reflexivity |]. split; [reflexivity |]. split; [| split].
  - intros Hy.
    assert (Hn : isNight dir = true) by (apply Rltb_true; exact Hy).
    split; [exact Hn |].
    unfold trackingYawPitch; rewrite Hn, stow_pitch_R; reflexivity.
  - intros Hy.
    assert (Hn : isNight dir = false) by (apply Rltb_false; cbn; lra).
    split; [exact Hn |].
    unfold trackingYawPitch; rewrite Hn; reflexivity.
  - intros Hh. rewrite sunDirection_R; cbn [vy]. split.
    + intros Hs. destruct (Rlt_or_le h 0) as [Hlt | Hge]; [exact Hlt |].
      destruct (Req_dec h 0) as [-> | Hne].
      * rewrite sin_0 in Hs; lra.
      * pose proof (sin_gt_0 h ltac:(lra) ltac:(lra)); lra.
    + intros Hlt. apply sin_lt_0_var; lra.
Qed.

(* ========================================================================= *)
(** * C9: the solar-noon scenario *)

Lemma noon_direction :
  sunDirection 0 1.1 = mkVector3 0 (sin 1.1) (cos 1.1).
Proof. rewrite sunDirection_R, sin_0, cos_0. f_equal; ring. Qed.

Lemma cos_1_1_pos : 0 < cos 1.1.
Proof. pose proof PI_gt_3. apply cos_gt_0; lra. Qed.

Lemma sin_1_1_pos : 0 < sin 1.1.
Proof. pose proof PI_gt_3. apply sin_gt_0; lra. Qed.

(** The claim as stated: the pitch would be the altitude's complement
    pi/2 - 1.1 clamped into [-5 deg, 65 deg]; the code gives the altitude
    itself. *)
Lemma noon_pitch_not_complement :
  snd (trackingYawPitch (sunDirection 0 1.1))
  <> clamp (PI / 2 - 1.1) (pitchMin LIMITS) (pitchMax LIMITS).
Proof.
  pose proof PI_gt_3. pose proof PI_4. pose proof PI_gt_3046.
  pose proof cos_1_1_pos. pose proof sin_1_1_pos.
  rewrite noon_direction.
  unfold trackingYawPitch.
  replace (isNight (mkVector3 0 (sin 1.1) (cos 1.1))) with false
    by (symmetry; apply Rltb_false; cbn; lra).
  cbn [snd].
  assert (Hp : pitchTarget (mkVector3 0 (sin 1.1) (cos 1.1)) = 1.1).
  { unfold pitchTarget; cbn.
    replace (0 * 0 + cos 1.1 * cos 1.1) with (cos 1.1 * cos 1.1) by ring.
    rewrite sqrt_square by lra. rewrite Ratan2_pos by lra.
    apply atan_tan; lra. }
  rewrite Hp, LIMITS_R; cbn [pitchMin pitchMax].
  rewrite !clamp_in by lra. lra.
Qed.

(** C9 (amended): for altitude 1.1 and azimuth 0 the tracking branch takes
    the non-night path, the clamped yaw is 0 and the clamped pitch is the
    altitude 1.1 itself (inside [-5 deg, 65 deg], so the clamp leaves it). *)
Theorem noon_scenario :
  isNight (sunDirection 0 1.1) = false /\
  trackingYawPitch (sunDirection 0 1.1) = (0, 1.1).
Proof.
  pose proof PI_gt_3. pose proof PI_gt_3046.
  pose proof cos_1_1_pos. pose proof sin_1_1_pos.
  rewrite noon_direction.
  assert (Hn : isNight (mkVector3 0 (sin 1.1) (cos 1.1)) = false)
    by (apply Rltb_false; cbn; lra).
  split; [exact Hn |].
  unfold trackingYawPitch; rewrite Hn.
  assert (Hy : yawTarget (mkVector3 0 (sin 1.1) (cos 1.1)) = 0).
  { unfold yawTarget; cbn. rewrite Ratan2_pos by lra.
    unfold Rdiv; rewrite Rmult_0_l; apply atan_0. }
  assert (Hp : pitchTarget (mkVector3 0 (sin 1.1) (cos 1.1)) = 1.1).
  { unfold pitchTarget; cbn.
    replace (0 * 0 + cos 1.1 * cos 1.1) with (cos 1.1 * cos 1.1) by ring.
    rewrite sqrt_square by lra. rewrite Ratan2_pos by lra.
    apply atan_tan; lra. }
  rewrite Hy, Hp, LIMITS_R; cbn [yawMin yawMax pitchMin pitchMax].
  rewrite !clamp_in by lra. reflexivity.
Qed.

(* ========================================================================= *)
(** * The demo trajectory: C6, C7, C10 *)

Definition omega : R := PI * 2 / 8.

Lemma demoYawPitch_R t :
  demoYawPitch t =
  (sin (t * omega * 0.35) * 30 * (PI / 180),
   (8 + (55 - 8) * ((sin (t * omega) + 1) / 2)) * (PI / 180)).
Proof. reflexivity. Qed.

(** The claim as stated: the pair at t = 0 and at t = 8 differ, since the
    yaw at t = 8 is 30 sin(0.7 pi) degrees. *)
Lemma demo_not_8_periodic :
  demoYawPitch 0 <> demoYawPitch 8.
Proof.
  rewrite !demoYawPitch_R. intros Heq. injection Heq as Hyaw _.
  pose proof PI_RGT_0.
  replace (0 * omega * 0.35) with 0 in Hyaw by ring.
  rewrite sin_0 in Hyaw.
  assert (Hs : 0 < sin (8 * omega * 0.35)).
  { unfold omega. apply sin_gt_0; lra. }
  assert (0 < sin (8 * omega * 0.35) * 30 * (PI / 180)).
  { apply Rmult_lt_0_compat; [lra | apply Rdiv_lt_0_compat; lra]. }
  lra.
Qed.

(** C6 (amended): the demo pitch has period 8 s, the demo yaw (at 0.35 times
    the pitch frequency) has period 160/7 s, and the (yaw, pitch) pair has
    period 160 s: demoYawPitch t = demoYawPitch (t + 160). *)
Theorem demoYawPitch_periodic (t : R) :
  snd (demoYawPitch (t + 8)) = snd (demoYawPitch t) /\
  fst (demoYawPitch (t + 160 / 7)) = fst (demoYawPitch t) /\
  demoYawPitch (t + 160) = demoYawPitch t.
Proof.
  rewrite !demoYawPitch_R; cbn [fst snd]; unfold omega.
  assert (Hp : forall k : nat, forall u, u = t * (PI * 2 / 8) + 2 * INR k * PI ->
                 sin u = sin (t * (PI * 2 / 8))).
  { intros k u ->. apply sin_period. }
  assert (Hy : forall k : nat, forall u, u = t * (PI * 2 / 8) * 0.35 + 2 * INR k * PI ->
                 sin u = sin (t * (PI * 2 / 8) * 0.35)).
  { intros k u ->. apply sin_period. }
  assert (I1 : INR 1 = 1) by reflexivity.
  assert (I7 : INR 7 = 7) by (rewrite INR_IZR_INZ; reflexivity).
  assert (I20 : INR 20 = 20) by (rewrite INR_IZR_INZ; reflexivity).
  split; [| split].
  - rewrite (Hp 1%nat); [reflexivity | rewrite I1; lra].
  - rewrite (Hy 1%nat); [reflexivity | rewrite I1; lra].
  - rewrite (Hp 20%nat ((t + 160) * (PI * 2 / 8))) by (rewrite I20; lra).
    rewrite (Hy 7%nat ((t + 160) * (PI * 2 / 8) * 0.35)) by (rewrite I7; lra).
    reflexivity.
Qed.

Lemma demo_pitch_range t :
  8 * (PI / 180) <= snd (demoYawPitch t) <= 55 * (PI / 180).
Proof.
  rewrite demoYawPitch_R; cbn [snd].
  pose proof PI_RGT_0. pose proof (SIN_bound (t * omega)).
  split; apply Rmult_le_compat_r; lra.
Qed.

Lemma demo_yaw_range t :
  -30 * (PI / 180) <= fst (demoYawPitch t) <= 30 * (PI / 180).
Proof.
  rewrite demoYawPitch_R; cbn [fst].
  pose proof PI_RGT_0. pose proof (SIN_bound (t * omega * 0.35)).
  split; apply Rmult_le_compat_r; lra.
Qed.

(** C7: in demo mode the pitch is 8 + (55 - 8)(sin(wt) + 1)/2 degrees, with
    w = 2 pi / 8, and lies in [8 deg, 55 deg]; the yaw is 30 sin(0.35 w t)
    degrees and lies in [-30 deg, 30 deg]; the frame writes
    base * Euler(pitch, yaw, 0) as the panel orientation, whatever the current
    orientation was (no slew-limited step). *)
Theorem spin_frame_direct (t : R) (d : Vector3 R) (base cur : Quaternion R) :
  let '(yaw, pitch) := demoYawPitch t in
  pitch = (8 + (55 - 8) * ((sin (t * (2 * PI / 8)) + 1) / 2)) * (PI / 180) /\
  8 * (PI / 180) <= pitch <= 55 * (PI / 180) /\
  yaw = (30 * sin (0.35 * (2 * PI / 8) * t)) * (PI / 180) /\
  -30 * (PI / 180) <= yaw <= 30 * (PI / 180) /\
  frame "spin" t (mkSession d base (Some cur)) =
    mkSession d base (Some (multiplyQuaternions base (setFromEulerXYZ pitch yaw 0))).
Proof.
  pose proof (demo_pitch_range t) as Hp. pose proof (demo_yaw_range t) as Hy.
  destruct (demoYawPitch t) as [yaw pitch] eqn:Hd.
  rewrite demoYawPitch_R in Hd. injection Hd as Hyaw Hpitch.
  cbn [fst snd] in Hp, Hy.
  split; [| split; [exact Hp | split; [| split; [exact Hy |]]]].
  - rewrite <- Hpitch; unfold omega.
    replace (PI * 2 / 8) with (2 * PI / 8) by field. reflexivity.
  - rewrite <- Hyaw; unfold omega.
    replace (t * (PI * 2 / 8) * 0.35) with (0.35 * (2 * PI / 8) * t) by lra.
    lra.
  - unfold frame; cbn [panel baseQuat sunDir String.eqb].
    rewrite demoYawPitch_R, <- Hyaw, <- Hpitch. reflexivity.
Qed.

(** C10: the demo (yaw, pitch) lies within the mechanical limits
    [-170 deg, 170 deg] x [-5 deg, 65 deg] although the spin branch does not
    clamp. *)
Theorem demo_within_limits (t : R) :
  let '(yaw, pitch) := demoYawPitch t in
  yawMin LIMITS <= yaw <= yawMax LIMITS /\
  pitchMin LIMITS <= pitch <= pitchMax LIMITS.
Proof.
  pose proof (demo_pitch_range t) as Hp. pose proof (demo_yaw_range t) as Hy.
  pose proof PI_RGT_0.
  destruct (demoYawPitch t) as [yaw pitch]; cbn [fst snd] in Hp, Hy.
  rewrite LIMITS_R; cbn. lra.
Qed.

(* ========================================================================= *)
(** * C5: non-finite sun angles *)

Module NaNFacts.

Lemma lift2_NaN_r f a : lift2 f a JNaN = JNaN.
Proof. destruct a; reflexivity. Qed.

Lemma cmp2_NaN_r f a : cmp2 f a JNaN = false.
Proof. destruct a; reflexivity. Qed.

Lemma div_NaN_r (a : jsval) : js_div a JNaN = JNaN.
Proof. destruct a; reflexivity. Qed.

Ltac nan_simpl :=
  repeat (cbn -[Reqb Rltb Rleb];
          rewrite ?lift2_NaN_r, ?cmp2_NaN_r, ?div_NaN_r).

End NaNFacts.
Import NaNFacts.

Definition nanQuaternion : Quaternion jsval := mkQuaternion JNaN JNaN JNaN JNaN.

Lemma setFromEuler_yaw_NaN (p z : jsval) :
  setFromEulerXYZ p JNaN z = nanQuaternion.
Proof. unfold setFromEulerXYZ. nan_simpl. reflexivity. Qed.

Lemma multiply_NaN_r (b : Quaternion jsval) :
  multiplyQuaternions b nanQuaternion = nanQuaternion.
Proof. unfold multiplyQuaternions. nan_simpl. reflexivity. Qed.

Lemma rotateTowards_NaN (cur : Quaternion jsval) (r : R) :
  rotateTowards cur nanQuaternion (JNum r) = nanQuaternion.
Proof.
  unfold rotateTowards, angleTo, qdot, clamp, slerp. nan_simpl. reflexivity.
Qed.

Lemma sunDirection_NaN (a h : jsval) :
  a = JNaN \/ h = JNaN -> vx (sunDirection a h) = JNaN.
Proof.
  intros [-> | ->]; unfold sunDirection, normalize, divideScalar, multiplyScalar;
    nan_simpl; reflexivity.
Qed.

Lemma trackingYaw_NaN (d : Vector3 jsval) :
  vx d = JNaN -> fst (trackingYawPitch d) = JNaN.
Proof.
  intros Hx. unfold trackingYawPitch, yawTarget, clamp. rewrite Hx. nan_simpl.
  reflexivity.
Qed.

Lemma tracking_frame_NaN (mode : string) (t : jsval) (st : Session jsval)
      (cur : Quaternion jsval) :
  panel st = Some cur -> String.eqb mode "spin" = false ->
  vx (sunDir st) = JNaN ->
  panel (frame mode t st) = Some nanQuaternion.
Proof.
  intros Hp Hm Hx. unfold frame. rewrite Hp, Hm.
  pose proof (trackingYaw_NaN _ Hx) as Hy.
  destruct (trackingYawPitch (sunDir st)) as [yaw pitch]; cbn [fst] in Hy; subst yaw.
  cbn [panel]. rewrite setFromEuler_yaw_NaN, multiply_NaN_r.
  f_equal. apply rotateTowards_NaN.
Qed.

Definition identityQuaternion : Quaternion jsval :=
  mkQuaternion (JNum 0) (JNum 0) (JNum 0) (JNum 1).

(** The claim as stated: from a session holding the identity orientation, a
    NaN azimuth followed by one tracking frame ("sun" mode) replaces the
    orientation by a NaN quaternion instead of keeping the last one. *)
Lemma nan_azimuth_reaches_orientation :
  let st0 := mkSession (mkVector3 (JNum 0) (JNum 1) (JNum 0))
                       identityQuaternion (Some identityQuaternion) in
  let st1 := frame "sun" (JNum 0) (updateSunDir st0 JNaN (JNum 0.5)) in
  panel st1 = Some nanQuaternion /\ panel st1 <> panel st0.
Proof.
  cbn zeta.
  assert (H : panel (frame "sun" (JNum 0)
                (updateSunDir (mkSession (mkVector3 (JNum 0) (JNum 1) (JNum 0))
                   identityQuaternion (Some identityQuaternion)) JNaN (JNum 0.5)))
              = Some nanQuaternion).
  { eapply tracking_frame_NaN; [reflexivity | reflexivity |].
    apply sunDirection_NaN. left; reflexivity. }
  split; [exact H |]. rewrite H. cbn. discriminate.
Qed.

(** C5 (amended): the code has no guard against non-finite sun angles.  When
    the sun-position source yields a NaN azimuth or altitude, the stored sun
    direction becomes NaN, and the next frame in tracking mode (any mode
    other than "spin") writes a NaN quaternion as the panel orientation,
    whatever the orientation was; frames in "spin" mode do not read the sun
    direction, so their orientation is the same as without the update. *)
Theorem nan_angles_propagate (st : Session jsval) (cur : Quaternion jsval)
        (a h t : jsval) (mode : string) :
  panel st = Some cur -> (a = JNaN \/ h = JNaN) -> mode <> "spin"%string ->
  vx (sunDir (updateSunDir st a h)) = JNaN /\
  panel (frame mode t (updateSunDir st a h)) = Some nanQuaternion /\
  frame "spin" t (updateSunDir st a h) =
    mkSession (sunDir (updateSunDir st a h)) (baseQuat st)
              (panel (frame "spin" t st)).
Proof.
  intros Hp Hnan Hm.
  assert (Hx : vx (sunDir (updateSunDir st a h)) = JNaN)
    by (apply sunDirection_NaN; exact Hnan).
  split; [exact Hx | split].
  - eapply tracking_frame_NaN; [exact Hp | | exact Hx].
    apply String.eqb_neq; exact Hm.
  - unfold frame; cbn [panel baseQuat sunDir updateSunDir]. rewrite Hp. reflexivity.
Qed.

Lemma nan_angles_propagate_witness :
  let st := mkSession (mkVector3 (JNum 0) (JNum 1) (JNum 0))
                      identityQuaternion (Some identityQuaternion) in
  (panel st = Some identityQuaternion /\
   (JNaN = JNaN \/ JNum 0.5 = JNaN) /\ "sun"%string <> "spin"%string) /\
  vx (sunDir (updateSunDir st JNaN (JNum 0.5))) = JNaN /\
  panel (frame "sun" (JNum 0) (updateSunDir st JNaN (JNum 0.5))) = Some nanQuaternion /\
  frame "spin" (JNum 0) (updateSunDir st JNaN (JNum 0.5)) =
    mkSession (sunDir (updateSunDir st JNaN (JNum 0.5))) (baseQuat st)
              (panel (frame "spin" (JNum 0) st)).
Proof.
  cbn zeta. split.
  - split; [reflexivity | split; [left; reflexivity | discriminate]].
  - apply (nan_angles_propagate _ identityQuaternion); [reflexivity | left; reflexivity | discriminate].
Defined.

(* ========================================================================= *)
(** * C4: Quaternion.rotateTowards *)

Module Slerp.

Definition unitQ (q : Quaternion R) : Prop :=
  qx q * qx q + qy q * qy q + qz q * qz q + qw q * qw q = 1.

Definition negQ (q : Quaternion R) : Quaternion R :=
  mkQuaternion (- qx q) (- qy q) (- qz q) (- qw q).

Lemma qdot_R (a b : Quaternion R) : qdot a b = qx a * qx b + qy a * qy b + qz a * qz b + qw a * qw b.
Proof. reflexivity. Qed.

Lemma unitQ_neg (q : Quaternion R) : unitQ q -> unitQ (negQ q).
Proof. unfold unitQ, negQ; cbn. intros H; rewrite <- H; ring. Qed.

Lemma qdot_neg_r (a b : Quaternion R) : qdot a (negQ b) = - qdot a b.
Proof. unfold negQ; rewrite !qdot_R; cbn; ring. Qed.

Lemma qdot_unit_bound (a b : Quaternion R) : unitQ a -> unitQ b -> -1 <= qdot a b <= 1.
Proof.
  unfold unitQ; rewrite qdot_R; intros Ha Hb.
  pose proof (Rle_0_sqr (qx a - qx b)); pose proof (Rle_0_sqr (qy a - qy b)).
  pose proof (Rle_0_sqr (qz a - qz b)); pose proof (Rle_0_sqr (qw a - qw b)).
  pose proof (Rle_0_sqr (qx a + qx b)); pose proof (Rle_0_sqr (qy a + qy b)).
  pose proof (Rle_0_sqr (qz a + qz b)); pose proof (Rle_0_sqr (qw a + qw b)).
  unfold Rsqr in *. split; nra.
Qed.

Lemma angleTo_R (a b : Quaternion R) :
  angleTo a b = 2 * acos (Rabs (Rmax (-1) (Rmin 1 (qdot a b)))).
Proof. reflexivity. Qed.

Lemma angleTo_unit (a b : Quaternion R) :
  unitQ a -> unitQ b -> angleTo a b = 2 * acos (Rabs (qdot a b)).
Proof.
  intros Ha Hb. rewrite angleTo_R.
  pose proof (qdot_unit_bound a b Ha Hb).
  replace (Rmax (-1) (Rmin 1 (qdot a b))) with (qdot a b); [reflexivity |].
  unfold Rmax, Rmin; repeat destruct Rle_dec; lra.
Qed.

Lemma angleTo_of_dot (a b : Quaternion R) :
  -1 <= qdot a b <= 1 -> angleTo a b = 2 * acos (Rabs (qdot a b)).
Proof.
  intros Hb. rewrite angleTo_R.
  replace (Rmax (-1) (Rmin 1 (qdot a b))) with (qdot a b); [reflexivity |].
  unfold Rmax, Rmin; repeat destruct Rle_dec; lra.
Qed.

Lemma angleTo_self (a : Quaternion R) : unitQ a -> angleTo a a = 0.
Proof.
  intros Ha. rewrite angleTo_unit by assumption.
  replace (qdot a a) with 1 by (rewrite qdot_R; unfold unitQ in Ha; lra).
  rewrite Rabs_R1, acos_1. ring.
Qed.

Lemma acos_half_range c : 0 <= c < 1 -> 0 < acos c <= PI / 2.
Proof.
  intros Hc. pose proof (acos_bound c) as Hb. pose proof (cos_acos c ltac:(lra)) as Hcos.
  split.
  - destruct (Req_dec (acos c) 0) as [H0 | H0]; [| lra].
    rewrite H0, cos_0 in Hcos; lra.
  - destruct (Rle_or_lt (acos c) (PI / 2)) as [Hle | Hgt]; [exact Hle |].
    destruct (Req_dec (acos c) PI) as [Hpi | Hpi].
    + rewrite Hpi, cos_PI in Hcos; lra.
    + pose proof (cos_lt_0 (acos c) Hgt ltac:(lra)); lra.
Qed.

Lemma sin_acos_pos c : 0 <= c < 1 -> sin (acos c) = sqrt (1 - c * c) /\ 0 < sqrt (1 - c * c).
Proof.
  intros Hc. split.
  - rewrite sin_acos by lra. reflexivity.
  - apply sqrt_lt_R0. nra.
Qed.

Lemma atan2_acos c : 0 <= c < 1 -> Ratan2 (sqrt (1 - c * c)) c = acos c.
Proof.
  intros Hc. destruct (Req_dec c 0) as [-> | Hne].
  - rewrite acos_0. unfold Ratan2.
    replace (1 - 0 * 0) with 1 by ring. rewrite sqrt_1.
    repeat destruct Rlt_dec; lra.
  - rewrite Ratan2_pos by lra. rewrite acos_atan by lra. reflexivity.
Qed.

(** The great-circle step of slerp: with c = cos(theta) the dot product of
    two unit quaternions q and p', the combination
    q sin((1-t) theta) / sin(theta) + p' sin(t theta) / sin(theta)
    is at angle t theta from q and (1 - t) theta from p'. *)
Lemma slerp_formula (q p' : Quaternion R) (c t : R) :
  unitQ q -> unitQ p' -> qdot q p' = c -> 0 <= c < 1 ->
  let theta := acos c in
  let sH := sqrt (1 - c * c) in
  let A := sin ((1 - t) * theta) / sH in
  let B := sin (t * theta) / sH in
  let r := mkQuaternion (qx q * A + qx p' * B) (qy q * A + qy p' * B)
                        (qz q * A + qz p' * B) (qw q * A + qw p' * B) in
  qdot q r = cos (t * theta) /\ qdot r p' = cos ((1 - t) * theta).
Proof.
  intros Hq Hp Hd Hc theta sH A B r.
  destruct (sin_acos_pos c Hc) as [Hsin Hpos].
  pose proof (cos_acos c ltac:(lra)) as Hcos.
  fold theta in Hsin, Hcos. fold sH in Hsin, Hpos.
  unfold unitQ in Hq, Hp. rewrite qdot_R in Hd.
  split.
  - transitivity (A * (qx q * qx q + qy q * qy q + qz q * qz q + qw q * qw q)
                  + B * (qx q * qx p' + qy q * qy p' + qz q * qz p' + qw q * qw p')).
    { unfold r; rewrite qdot_R; cbn; ring. }
    rewrite Hq, Hd. unfold A, B.
    replace ((1 - t) * theta) with (theta - t * theta) by ring.
    rewrite sin_minus, Hsin, Hcos. field. lra.
  - transitivity (A * (qx q * qx p' + qy q * qy p' + qz q * qz p' + qw q * qw p')
                  + B * (qx p' * qx p' + qy p' * qy p' + qz p' * qz p' + qw p' * qw p')).
    { unfold r; rewrite qdot_R; cbn; ring. }
    rewrite Hp, Hd. unfold A, B.
    replace (t * theta) with (theta - (1 - t) * theta) at 1 by ring.
    rewrite sin_minus, Hsin, Hcos. field. lra.
Qed.

Lemma slerp_explicit (q p : Quaternion R) (t : R) :
  t <> 0 -> t <> 1 -> Rabs (qdot q p) < 1 ->
  / 2 ^ 52 < 1 - Rabs (qdot q p) * Rabs (qdot q p) ->
  let p' := if Rltb (qdot q p) 0 then negQ p else p in
  let c := Rabs (qdot q p) in
  let theta := acos c in
  let sH := sqrt (1 - c * c) in
  let A := sin ((1 - t) * theta) / sH in
  let B := sin (t * theta) / sH in
  slerp q p t = mkQuaternion (qx q * A + qx p' * B) (qy q * A + qy p' * B)
                             (qz q * A + qz p' * B) (qw q * A + qw p' * B).
Proof.
  intros H0 H1 Hd Heps p' c theta sH A B.
  assert (E0 : js_eqb t (js_lit 0) = false)
    by (apply Bool.not_true_iff_false; rewrite Reqb_true; exact H0).
  assert (E1 : js_eqb t (js_lit 1) = false)
    by (apply Bool.not_true_iff_false; rewrite Reqb_true; exact H1).
  assert (Hc : 0 <= c < 1) by (split; [apply Rabs_pos | exact Hd]).
  unfold slerp. rewrite E0, E1.
  set (d0 := (qw q * qw p + qx q * qx p + qy q * qy p + qz q * qz p)%js).
  assert (Hd0 : d0 = qdot q p) by (unfold d0; rewrite qdot_R; cbn; ring).
  clearbody d0. subst d0.
  change (js_lt (qdot q p) (js_lit 0)) with (Rltb (qdot q p) 0).
  unfold p'. destruct (Rltb (qdot q p) 0) eqn:Hs; cbv beta iota zeta.
  - apply Rltb_true in Hs.
    assert (Hcd : js_neg (qdot q p) = c) by (unfold c; rewrite Rabs_left by exact Hs; reflexivity).
    rewrite Hcd.
    change (js_le (js_lit 1) c) with (Rleb 1 c).
    replace (Rleb 1 c) with false
      by (symmetry; apply Bool.not_true_iff_false; rewrite Rleb_true; lra).
    change (js_le (js_sub (js_lit 1) (js_mul c c)) EPSILON) with (Rleb (1 - c * c) (/ 2 ^ 52)).
    replace (Rleb (1 - c * c) (/ 2 ^ 52)) with false
      by (symmetry; apply Bool.not_true_iff_false; rewrite Rleb_true; unfold c; lra).
    cbn -[sin sqrt Ratan2].
    rewrite atan2_acos by exact Hc. reflexivity.
  - apply Rltb_false in Hs.
    assert (Hcd : qdot q p = c) by (unfold c; rewrite Rabs_right by lra; reflexivity).
    rewrite Hcd.
    change (js_le (js_lit 1) c) with (Rleb 1 c).
    replace (Rleb 1 c) with false
      by (symmetry; apply Bool.not_true_iff_false; rewrite Rleb_true; lra).
    change (js_le (js_sub (js_lit 1) (js_mul c c)) EPSILON) with (Rleb (1 - c * c) (/ 2 ^ 52)).
    replace (Rleb (1 - c * c) (/ 2 ^ 52)) with false
      by (symmetry; apply Bool.not_true_iff_false; rewrite Rleb_true; unfold c; lra).
    cbn -[sin sqrt Ratan2].
    rewrite atan2_acos by exact Hc. reflexivity.
Qed.

Lemma slerp_arc (q p : Quaternion R) (t : R) :
  unitQ q -> unitQ p -> 0 < t < 1 -> Rabs (qdot q p) < 1 ->
  / 2 ^ 52 < 1 - Rabs (qdot q p) * Rabs (qdot q p) ->
  let theta := acos (Rabs (qdot q p)) in
  qdot q (slerp q p t) = cos (t * theta) /\
  (qdot (slerp q p t) p = cos ((1 - t) * theta) \/
   qdot (slerp q p t) p = - cos ((1 - t) * theta)).
Proof.
  intros Hq Hp Ht Hd Heps; cbv zeta.
  assert (Hc : 0 <= Rabs (qdot q p) < 1) by (split; [apply Rabs_pos | exact Hd]).
  rewrite slerp_explicit by (lra || assumption).
  destruct (Rltb (qdot q p) 0) eqn:Hs; cbv zeta.
  - apply Rltb_true in Hs.
    assert (Hqp : qdot q (negQ p) = Rabs (qdot q p))
      by (rewrite qdot_neg_r, Rabs_left by exact Hs; reflexivity).
    destruct (slerp_formula q (negQ p) (Rabs (qdot q p)) t Hq (unitQ_neg p Hp) Hqp Hc)
      as [E1 E2].
    split; [exact E1 |]. right.
    rewrite <- E2.
    unfold negQ; rewrite !qdot_R; cbn; ring.
  - apply Rltb_false in Hs.
    assert (Hqp : qdot q p = Rabs (qdot q p))
      by (rewrite Rabs_right by lra; reflexivity).
    destruct (slerp_formula q p (Rabs (qdot q p)) t Hq Hp Hqp Hc) as [E1 E2].
    split; [exact E1 | left; exact E2].
Qed.

Lemma EPSILON_small : / 2 ^ 52 < 0.0001.
Proof.
  assert (H : 2 ^ 52 = 4503599627370496) by (rewrite pow_IZR; reflexivity).
  rewrite H.
  apply (Rmult_lt_reg_l 4503599627370496); [lra |]. rewrite Rinv_r by lra. lra.
Qed.

Lemma sin_001_lb : 0.0099 < sin 0.01.
Proof.
  pose proof PI_RGT_0. pose proof PI2_3_2.
  destruct (sin_bound 0.01 0 ltac:(lra) ltac:(lra)) as [Hs _].
  unfold sin_approx, sin_term in Hs. simpl in Hs. lra.
Qed.

(** Past an angle of 0.02 the near-parallel (lerp) case of slerp, taken when
    sin^2 of the half angle is at most Number.EPSILON, cannot happen. *)
Lemma far_not_parallel c : 0 <= c < 1 -> 0.02 < 2 * acos c -> / 2 ^ 52 < 1 - c * c.
Proof.
  intros Hc Hang.
  pose proof EPSILON_small. pose proof sin_001_lb. pose proof PI2_3_2.
  destruct (acos_half_range c Hc) as [Hlo Hhi].
  destruct (sin_acos_pos c Hc) as [Hsin Hpos].
  assert (Hmono : sin 0.01 < sin (acos c))
    by (apply sin_increasing_1; lra).
  assert (Hsq : sqrt (1 - c * c) * sqrt (1 - c * c) = 1 - c * c)
    by (apply sqrt_sqrt; nra).
  nra.
Qed.

Lemma slerp_one (a b : Quaternion R) : slerp a b 1 = b.
Proof.
  assert (E0 : js_eqb (N := R) 1 (js_lit 0) = false)
    by (apply Bool.not_true_iff_false; rewrite Reqb_true; cbn; lra).
  assert (E1 : js_eqb (N := R) 1 (js_lit 1) = true) by (apply Reqb_true; reflexivity).
  unfold slerp. rewrite E0, E1. reflexivity.
Qed.

Lemma acos_cos_abs x : 0 <= x <= PI / 2 -> acos (Rabs (cos x)) = x.
Proof.
  intros Hx. pose proof PI_RGT_0.
  rewrite Rabs_right by (apply Rle_ge, cos_ge_0; lra).
  apply acos_cos; lra.
Qed.

End Slerp.
Import Slerp.

(** C4: one call of [rotateTowards] (the frame's advance step, called with
    step 0.02) on unit quaternions, for every step of at least 0.02: the
    orientation moves by at most [step] (angleTo), never moves away from the
    target, lands on the great circle between current and target (the two
    angles add up: no overshoot), leaves max(0, d - step) of the distance d,
    and returns the target itself once d <= step (or the current orientation
    when d is already 0). *)
Theorem rotateTowards_slew (cur tgt : Quaternion R) (step : R) :
  unitQ cur -> unitQ tgt -> 0.02 <= step ->
  let next := rotateTowards cur tgt step in
  angleTo cur next <= step /\
  angleTo next tgt <= angleTo cur tgt /\
  angleTo cur next + angleTo next tgt = angleTo cur tgt /\
  angleTo next tgt = Rmax 0 (angleTo cur tgt - step) /\
  (angleTo cur tgt <= step ->
     angleTo next tgt = 0 /\ (next = tgt \/ (next = cur /\ angleTo cur tgt = 0))).
Proof.
  intros Hq Hp Hstep next.
  pose proof PI_RGT_0 as Hpi.
  pose proof (qdot_unit_bound cur tgt Hq Hp) as Hd.
  set (c := Rabs (qdot cur tgt)).
  assert (Hc : 0 <= c <= 1) by (unfold c; split; [apply Rabs_pos | apply Rabs_le; lra]).
  assert (Hang : angleTo cur tgt = 2 * acos c) by (apply angleTo_unit; assumption).
  pose proof (acos_bound c) as Hab.
  unfold next, rotateTowards; cbv zeta.
  change (js_eqb (angleTo cur tgt) (js_lit 0)) with (Reqb (angleTo cur tgt) 0).
  destruct (Reqb (angleTo cur tgt) 0) eqn:Hz.
  - apply Reqb_true in Hz. rewrite Hz, angleTo_self by exact Hq.
    replace (Rmax 0 (0 - step)) with 0 by (unfold Rmax; destruct Rle_dec; lra).
    repeat split; try lra. right; split; reflexivity.
  - assert (Hz' : angleTo cur tgt <> 0)
      by (intros E; apply Reqb_true in E; congruence).
    assert (Hc1 : c < 1).
    { destruct (Req_dec c 1) as [E | E]; [| lra].
      exfalso; apply Hz'; rewrite Hang, E, acos_1; ring. }
    assert (Hpos : 0 < angleTo cur tgt) by lra.
    change (js_min (js_lit 1) (js_div step (angleTo cur tgt)))
      with (Rmin 1 (step / angleTo cur tgt)).
    destruct (Rle_or_lt (angleTo cur tgt) step) as [Hle | Hgt].
    + replace (Rmin 1 (step / angleTo cur tgt)) with 1.
      2:{ unfold Rmin; destruct Rle_dec as [H1 | H1]; [reflexivity |].
          exfalso; apply H1. apply (Rmult_le_reg_r (angleTo cur tgt)); [lra |].
          unfold Rdiv; rewrite Rmult_assoc, Rinv_l by lra. lra. }
      rewrite slerp_one, angleTo_self by exact Hp.
      replace (Rmax 0 (angleTo cur tgt - step)) with 0
        by (unfold Rmax; destruct Rle_dec; lra).
      repeat split; try lra. left; reflexivity.
    + set (t := step / angleTo cur tgt).
      assert (Ht : 0 < t < 1).
      { unfold t; split.
        - apply Rdiv_lt_0_compat; lra.
        - apply (Rmult_lt_reg_r (angleTo cur tgt)); [lra |].
          unfold Rdiv; rewrite Rmult_assoc, Rinv_l by lra. lra. }
      replace (Rmin 1 t) with t by (unfold Rmin; destruct Rle_dec; lra).
      assert (Heps : / 2 ^ 52 < 1 - c * c)
        by (apply far_not_parallel; lra).
      destruct (slerp_arc cur tgt t Hq Hp Ht Hc1 Heps) as [E1 E2].
      fold c in E1, E2.
      destruct (acos_half_range c ltac:(lra)) as [Hth0 Hth1].
      assert (Htt : t * acos c = step / 2).
      { unfold t; rewrite Hang; field. lra. }
      assert (Hmove : angleTo cur (slerp cur tgt t) = step).
      { rewrite angleTo_of_dot.
        - rewrite E1, acos_cos_abs by nra. lra.
        - rewrite E1; apply COS_bound. }
      assert (Hrest : angleTo (slerp cur tgt t) tgt = angleTo cur tgt - step).
      { assert (Habs : Rabs (qdot (slerp cur tgt t) tgt) = Rabs (cos ((1 - t) * acos c)))
          by (destruct E2 as [E | E]; rewrite E; [reflexivity | apply Rabs_Ropp]).
        rewrite angleTo_of_dot.
        - rewrite Habs, acos_cos_abs by nra. rewrite Hang. nra.
        - pose proof (COS_bound ((1 - t) * acos c)).
          destruct E2 as [E | E]; rewrite E; lra. }
      rewrite Hmove, Hrest.
      replace (Rmax 0 (angleTo cur tgt - step)) with (angleTo cur tgt - step)
        by (unfold Rmax; destruct Rle_dec; lra).
      repeat split; try lra.
Qed.

Definition identityQ : Quaternion R := mkQuaternion 0 0 0 1.

Lemma rotateTowards_slew_witness :
  let cur := identityQ in
  let tgt := setFromEulerXYZ (0.5 : R) 0 0 in
  (unitQ cur /\ unitQ tgt /\ 0.02 <= 0.02) /\
  let next := rotateTowards cur tgt 0.02 in
  angleTo cur next <= 0.02 /\
  angleTo next tgt <= angleTo cur tgt /\
  angleTo cur next + angleTo next tgt = angleTo cur tgt /\
  angleTo next tgt = Rmax 0 (angleTo cur tgt - 0.02) /\
  (angleTo cur tgt <= 0.02 ->
     angleTo next tgt = 0 /\ (next = tgt \/ (next = cur /\ angleTo cur tgt = 0))).
Proof.
  cbv zeta.
  assert (Hu : unitQ identityQ) by (unfold unitQ, identityQ; cbn; ring).
  assert (Ht : unitQ (setFromEulerXYZ (0.5 : R) 0 0)).
  { unfold unitQ, setFromEulerXYZ; cbn.
    pose proof (sin2_cos2 (0.5 / 2)) as E. unfold Rsqr in E.
    rewrite !Rdiv_0_l, cos_0, sin_0. lra. }
  split; [split; [exact Hu | split; [exact Ht | lra]] |].
  apply (rotateTowards_slew identityQ (setFromEulerXYZ (0.5 : R) 0 0) 0.02 Hu Ht); lra.
Defined.

(* ========================================================================= *)
(** * Further properties of the orientation controller *)

From Stdlib Require Import List Factorial.
Import ListNotations.

Section Tracking.
Context {N : Type} `{JSNumber N}.
Local Open Scope js_scope.

(** The quaternion [qFinal] the tracking branch of the frame callback
    rotates towards. *)
Definition trackingTarget (st : Session N) : Quaternion N :=
  let '(yaw, pitch) := trackingYawPitch (sunDir st) in
  let qDelta := setFromEulerXYZ pitch yaw (#0) in
  multiplyQuaternions (baseQuat st) qDelta.

(** Consecutive calls of the frame callback at clock times [ts], with no
    sun-direction update in between. *)
Fixpoint frames (mode : string) (ts : list N) (st : Session N) : Session N :=
  match ts with
  | nil => st
  | t :: ts' => frames mode ts' (frame mode t st)
  end.

End Tracking.

Module OrientationFacts.

Lemma Ratan2_polar (a k : R) :
  0 < k -> - PI < a <= PI -> Ratan2 (sin a * k) (cos a * k) = a.
Proof.
  intros Hk Ha. pose proof PI_RGT_0.
  destruct (Rtotal_order a (PI / 2)) as [Hlt | [Heq | Hgt]].
  - destruct (Rtotal_order a (- (PI / 2))) as [Hlt' | [Heq' | Hgt']].
    + (* -PI < a < -PI/2 *)
      assert (Hc : cos a < 0).
      { rewrite <- cos_neg. apply cos_lt_0; lra. }
      assert (Hs : sin a < 0) by (apply sin_lt_0_var; lra).
      assert (Hc' : cos (a + PI) <> 0) by (rewrite neg_cos; lra).
      unfold Ratan2.
      destruct Rlt_dec; [nra |]. destruct Rlt_dec; [| nra].
      destruct Rle_dec; [nra |].
      replace (sin a * k / (cos a * k)) with (tan (a + PI)).
      2:{ unfold tan. rewrite neg_cos, neg_sin. field. lra. }
      rewrite atan_tan by lra. ring.
    + subst a. rewrite cos_neg, sin_neg, cos_PI2, sin_PI2.
      unfold Ratan2. repeat destruct Rlt_dec; lra.
    + assert (Hc : 0 < cos a) by (apply cos_gt_0; lra).
      rewrite Ratan2_pos by nra.
      replace (sin a * k / (cos a * k)) with (tan a) by (unfold tan; field; lra).
      apply atan_tan; lra.
  - subst a. rewrite cos_PI2, sin_PI2.
    unfold Ratan2. repeat destruct Rlt_dec; lra.
  - (* PI/2 < a <= PI *)
    assert (Hc : cos a < 0) by (apply cos_lt_0; lra).
    assert (Hs : 0 <= sin a) by (apply sin_ge_0; lra).
    assert (Hc' : cos (a - PI) <> 0).
    { intros E. replace (cos a) with (cos ((a - PI) + PI)) in Hc by (f_equal; ring).
      rewrite neg_cos, E in Hc. lra. }
    unfold Ratan2.
    destruct Rlt_dec; [nra |]. destruct Rlt_dec; [| nra].
    destruct Rle_dec; [| nra].
    replace (sin a * k / (cos a * k)) with (tan (a - PI)).
    2:{ unfold tan.
        replace (sin a) with (sin ((a - PI) + PI)) by (f_equal; ring).
        replace (cos a) with (cos ((a - PI) + PI)) by (f_equal; ring).
        rewrite neg_cos, neg_sin. field. split; [lra | exact Hc']. }
    rewrite atan_tan by lra. ring.
Qed.

Lemma Ratan2_cos_pos (h : R) :
  - (PI / 2) < h < PI / 2 -> Ratan2 (sin h) (cos h) = h.
Proof.
  intros Hh. assert (Hc : 0 < cos h) by (apply cos_gt_0; lra).
  rewrite Ratan2_pos by exact Hc. apply atan_tan; lra.
Qed.

Lemma hypot_sunDirection (a h : R) :
  0 < cos h -> sqrt (sin a * cos h * (sin a * cos h) + cos a * cos h * (cos a * cos h)) = cos h.
Proof.
  intros Hc.
  replace (sin a * cos h * (sin a * cos h) + cos a * cos h * (cos a * cos h))
    with (cos h * cos h) by (pose proof (sin2_cos2 a) as E; unfold Rsqr in E; nra).
  apply sqrt_square; lra.
Qed.

Lemma sin_neg_iff (h : R) : - (PI / 2) < h < PI / 2 -> (sin h < 0 <-> h < 0).
Proof.
  intros Hh. pose proof PI_RGT_0. split.
  - intros Hs. destruct (Rlt_or_le h 0) as [Hl | Hl]; [exact Hl |].
    pose proof (sin_ge_0 h Hl ltac:(lra)); lra.
  - intros Hl. apply sin_lt_0_var; lra.
Qed.

(** Norms of the quaternion constructors. *)
Lemma setFromEuler_unit (x y z : R) : unitQ (setFromEulerXYZ x y z).
Proof.
  unfold unitQ, setFromEulerXYZ; cbn.
  set (c1 := cos (x / 2)); set (c2 := cos (y / 2)); set (c3 := cos (z / 2)).
  set (s1 := sin (x / 2)); set (s2 := sin (y / 2)); set (s3 := sin (z / 2)).
  pose proof (sin2_cos2 (x / 2)) as E1; pose proof (sin2_cos2 (y / 2)) as E2;
  pose proof (sin2_cos2 (z / 2)) as E3. unfold Rsqr in E1, E2, E3.
  fold s1 c1 in E1; fold s2 c2 in E2; fold s3 c3 in E3.
  transitivity ((s1 * s1 + c1 * c1) * (s2 * s2 + c2 * c2) * (s3 * s3 + c3 * c3));
    [ring |].
  rewrite E1, E2, E3. ring.
Qed.

Lemma multiply_unit (a b : Quaternion R) :
  unitQ a -> unitQ b -> unitQ (multiplyQuaternions a b).
Proof.
  unfold unitQ, multiplyQuaternions; cbn. intros Ha Hb.
  transitivity ((qx a * qx a + qy a * qy a + qz a * qz a + qw a * qw a) *
                (qx b * qx b + qy b * qy b + qz b * qz b + qw b * qw b)); [ring |].
  rewrite Ha, Hb. ring.
Qed.

Lemma trackingTarget_unit (st : Session R) :
  unitQ (baseQuat st) -> unitQ (trackingTarget st).
Proof.
  intros Hb. unfold trackingTarget.
  destruct (trackingYawPitch (sunDir st)) as [yaw pitch].
  apply multiply_unit; [exact Hb | apply setFromEuler_unit].
Qed.

(** sin^2 ((1-t) theta) + sin^2 (t theta) + 2 sin ((1-t) theta) sin (t theta) cos theta
    = sin^2 theta *)
Lemma slerp_weights (u v : R) :
  sin v * sin v + sin u * sin u + 2 * sin v * sin u * cos (u + v) =
  sin (u + v) * sin (u + v).
Proof.
  rewrite cos_plus, sin_plus.
  pose proof (sin2_cos2 u) as Eu; pose proof (sin2_cos2 v) as Ev. unfold Rsqr in Eu, Ev.
  transitivity ((sin u * cos v + cos u * sin v) * (sin u * cos v + cos u * sin v) +
                sin v * sin v * (1 - (sin u * sin u + cos u * cos u)) +
                sin u * sin u * (1 - (sin v * sin v + cos v * cos v))); [ring |].
  rewrite Eu, Ev. ring.
Qed.

Lemma slerp_formula_unit (q p' : Quaternion R) (c t : R) :
  unitQ q -> unitQ p' -> qdot q p' = c -> 0 <= c < 1 ->
  let theta := acos c in
  let sH := sqrt (1 - c * c) in
  let A := sin ((1 - t) * theta) / sH in
  let B := sin (t * theta) / sH in
  unitQ (mkQuaternion (qx q * A + qx p' * B) (qy q * A + qy p' * B)
                      (qz q * A + qz p' * B) (qw q * A + qw p' * B)).
Proof.
  intros Hq Hp Hd Hc theta sH A B.
  destruct (sin_acos_pos c Hc) as [Hsin Hpos].
  pose proof (cos_acos c ltac:(lra)) as Hcos.
  fold theta in Hsin, Hcos. fold sH in Hsin, Hpos.
  unfold unitQ in *; rewrite qdot_R in Hd; cbn.
  transitivity (A * A * (qx q * qx q + qy q * qy q + qz q * qz q + qw q * qw q)
                + B * B * (qx p' * qx p' + qy p' * qy p' + qz p' * qz p' + qw p' * qw p')
                + 2 * A * B * (qx q * qx p' + qy q * qy p' + qz q * qz p' + qw q * qw p'));
    [ring |].
  rewrite Hq, Hp, Hd.
  pose proof (slerp_weights (t * theta) ((1 - t) * theta)) as W.
  replace (t * theta + (1 - t) * theta) with theta in W by ring.
  rewrite Hcos, Hsin in W.
  unfold A, B.
  apply (Rmult_eq_reg_r (sH * sH)); [| nra].
  field_simplify; [| lra]. nra.
Qed.

(** One advance step of [rotateTowards] between unit quaternions, for any
    step of at least 0.02: the result is a unit quaternion at distance
    max(0, d - step) from the target. *)
Lemma rotateTowards_progress (cur tgt : Quaternion R) (step : R) :
  unitQ cur -> unitQ tgt -> 0.02 <= step ->
  unitQ (rotateTowards cur tgt step) /\
  angleTo (rotateTowards cur tgt step) tgt = Rmax 0 (angleTo cur tgt - step).
Proof.
  intros Hq Hp Hstep.
  pose proof PI_RGT_0 as Hpi.
  pose proof (qdot_unit_bound cur tgt Hq Hp) as Hd.
  set (c := Rabs (qdot cur tgt)).
  assert (Hc : 0 <= c <= 1) by (unfold c; split; [apply Rabs_pos | apply Rabs_le; lra]).
  assert (Hang : angleTo cur tgt = 2 * acos c) by (apply angleTo_unit; assumption).
  pose proof (acos_bound c) as Hab.
  unfold rotateTowards; cbv zeta.
  change (js_eqb (angleTo cur tgt) (js_lit 0)) with (Reqb (angleTo cur tgt) 0).
  destruct (Reqb (angleTo cur tgt) 0) eqn:Hz.
  - apply Reqb_true in Hz. rewrite Hz.
    replace (Rmax 0 (0 - step)) with 0 by (unfold Rmax; destruct Rle_dec; lra).
    split; [exact Hq | reflexivity].
  - assert (Hz' : angleTo cur tgt <> 0)
      by (intros E; apply Reqb_true in E; congruence).
    assert (Hc1 : c < 1).
    { destruct (Req_dec c 1) as [E | E]; [| lra].
      exfalso; apply Hz'; rewrite Hang, E, acos_1; ring. }
    assert (Hpos : 0 < angleTo cur tgt) by lra.
    change (js_min (js_lit 1) (js_div step (angleTo cur tgt)))
      with (Rmin 1 (step / angleTo cur tgt)).
    destruct (Rle_or_lt (angleTo cur tgt) step) as [Hle | Hgt].
    + replace (Rmin 1 (step / angleTo cur tgt)) with 1.
      2:{ unfold Rmin; destruct Rle_dec as [H1 | H1]; [reflexivity |].
          exfalso; apply H1. apply (Rmult_le_reg_r (angleTo cur tgt)); [lra |].
          unfold Rdiv; rewrite Rmult_assoc, Rinv_l by lra. lra. }
      rewrite slerp_one, angleTo_self by exact Hp.
      replace (Rmax 0 (angleTo cur tgt - step)) with 0
        by (unfold Rmax; destruct Rle_dec; lra).
      split; [exact Hp | reflexivity].
    + set (t := step / angleTo cur tgt).
      assert (Ht : 0 < t < 1).
      { unfold t; split.
        - apply Rdiv_lt_0_compat; lra.
        - apply (Rmult_lt_reg_r (angleTo cur tgt)); [lra |].
          unfold Rdiv; rewrite Rmult_assoc, Rinv_l by lra. lra. }
      replace (Rmin 1 t) with t by (unfold Rmin; destruct Rle_dec; lra).
      assert (Heps : / 2 ^ 52 < 1 - c * c)
        by (apply far_not_parallel; lra).
      destruct (slerp_arc cur tgt t Hq Hp Ht Hc1 Heps) as [E1 E2].
      fold c in E1, E2.
      destruct (acos_half_range c ltac:(lra)) as [Hth0 Hth1].
      assert (Htt : t * acos c = step / 2).
      { unfold t; rewrite Hang; field. lra. }
      assert (Hrest : angleTo (slerp cur tgt t) tgt = angleTo cur tgt - step).
      { assert (Habs : Rabs (qdot (slerp cur tgt t) tgt) = Rabs (cos ((1 - t) * acos c)))
          by (destruct E2 as [E | E]; rewrite E; [reflexivity | apply Rabs_Ropp]).
        rewrite angleTo_of_dot.
        - rewrite Habs, acos_cos_abs by nra. rewrite Hang. nra.
        - pose proof (COS_bound ((1 - t) * acos c)).
          destruct E2 as [E | E]; rewrite E; lra. }
      rewrite Hrest.
      replace (Rmax 0 (angleTo cur tgt - step)) with (angleTo cur tgt - step)
        by (unfold Rmax; destruct Rle_dec; lra).
      split; [| reflexivity].
      rewrite slerp_explicit by (unfold c in Hc1, Heps; lra).
      destruct (Rltb (qdot cur tgt) 0) eqn:Hs; cbv zeta.
      * apply Rltb_true in Hs.
        apply (slerp_formula_unit cur (negQ tgt) c t Hq (unitQ_neg tgt Hp)); [| lra].
        rewrite qdot_neg_r. unfold c; rewrite Rabs_left by exact Hs. reflexivity.
      * apply Rltb_false in Hs.
        apply (slerp_formula_unit cur tgt c t Hq Hp); [| lra].
        unfold c; rewrite Rabs_right by lra. reflexivity.
Qed.

Lemma frame_tracking (mode : string) (t : R) (st : Session R) (cur : Quaternion R) :
  mode <> "spin"%string -> panel st = Some cur ->
  frame mode t st =
  mkSession (sunDir st) (baseQuat st) (Some (rotateTowards cur (trackingTarget st) 0.02)).
Proof.
  intros Hm Hp. unfold frame, trackingTarget. rewrite Hp.
  replace (String.eqb mode "spin") with false
    by (symmetry; apply String.eqb_neq; exact Hm).
  destruct (trackingYawPitch (sunDir st)); reflexivity.
Qed.

Lemma angleTo_le_PI (a b : Quaternion R) : unitQ a -> unitQ b -> 0 <= angleTo a b <= PI.
Proof.
  intros Ha Hb. rewrite angleTo_unit by assumption.
  pose proof (qdot_unit_bound a b Ha Hb).
  assert (Hc : 0 <= Rabs (qdot a b) <= 1) by (split; [apply Rabs_pos | apply Rabs_le; lra]).
  destruct (Req_dec (Rabs (qdot a b)) 1) as [E | E].
  - rewrite E, acos_1. pose proof PI_RGT_0. lra.
  - assert (Hc1 : Rabs (qdot a b) < 1) by (destruct Hc as [_ [Hlt | Heq]]; [exact Hlt | contradiction]).
    assert (Hc2 : 0 <= Rabs (qdot a b) < 1) by lra.
    pose proof (acos_half_range (Rabs (qdot a b)) Hc2). lra.
Qed.

Lemma PI_lt_316 : PI < 3.16.
Proof.
  destruct (Rlt_or_le PI 3.16) as [H | H]; [exact H | exfalso].
  pose proof PI_RGT_0.
  destruct (cos_bound 1.58 1 ltac:(lra) ltac:(lra)) as [_ Hc].
  pose proof (cos_ge_0 1.58 ltac:(lra) ltac:(lra)).
  assert (F : forall n z, Z.of_nat (fact n) = z -> INR (fact n) = IZR z)
    by (intros n z E; rewrite INR_IZR_INZ, E; reflexivity).
  unfold cos_approx, cos_term in Hc.
  cbv beta iota delta [sum_f_R0 Nat.mul Nat.add] in Hc.
  rewrite (F 0%nat 1%Z), (F 2%nat 2%Z), (F 4%nat 24%Z), (F 6%nat 720%Z), (F 8%nat 40320%Z)
    in Hc by (vm_compute; reflexivity).
  cbn [pow] in Hc. lra.
Qed.

End OrientationFacts.
Import OrientationFacts.

(** X1: for the same azimuth and altitude, the sky position written by the
    lighting update is 100 times the direction the panel controller stores,
    so it lies on the sphere of radius 100, by day and by night. *)
Theorem lightingUpdate_skyPos_sunDir (a h : R) :
  let d := sunDirection a h in
  let '(x, y, z) := skyPos (lightingUpdate a h) in
  x = 100 * vx d /\ y = 100 * vy d /\ z = 100 * vz d /\
  sqrt (x * x + y * y + z * z) = 100.
Proof.
  cbv zeta. rewrite sunDirection_R.
  assert (E : skyPos (lightingUpdate a h) =
              (sin a * cos h * 100, sin h * 100, cos a * cos h * 100))
    by (unfold lightingUpdate; destruct (isDay h); reflexivity).
  rewrite E; cbn [vx vy vz].
  repeat split; try ring.
  replace (sin a * cos h * 100 * (sin a * cos h * 100) + sin h * 100 * (sin h * 100) +
           cos a * cos h * 100 * (cos a * cos h * 100))
    with (100 * 100 * (sin a * cos h * (sin a * cos h) + sin h * sin h +
                       cos a * cos h * (cos a * cos h))) by ring.
  rewrite sphere_identity, Rmult_1_r. apply sqrt_square; lra.
Qed.

(** X2: for a stored sun direction with azimuth a in (-pi, pi] and altitude
    h in (-pi/2, pi/2), the yaw target is a and the pitch target is h; the
    tracked (yaw, pitch) is a clamped to the yaw limits and either the 5
    degree stow angle (h < 0) or h clamped to the pitch limits. *)
Theorem tracking_aims_at_sun (a h : R) :
  - PI < a <= PI -> - (PI / 2) < h < PI / 2 ->
  let d := sunDirection a h in
  yawTarget d = a /\ pitchTarget d = h /\
  trackingYawPitch d =
    (clamp a (yawMin LIMITS) (yawMax LIMITS),
     if Rltb h 0 then 5 * (PI / 180) else clamp h (pitchMin LIMITS) (pitchMax LIMITS)).
Proof.
  intros Ha Hh; cbv zeta.
  assert (Hc : 0 < cos h) by (apply cos_gt_0; lra).
  assert (Hyaw : yawTarget (sunDirection a h) = a).
  { rewrite sunDirection_R. unfold yawTarget; cbn [vx vz].
    apply Ratan2_polar; assumption. }
  assert (Hpitch : pitchTarget (sunDirection a h) = h).
  { rewrite sunDirection_R. unfold pitchTarget; cbn [vx vy vz].
    change (js_hypot (sin a * cos h) (cos a * cos h))
      with (sqrt (sin a * cos h * (sin a * cos h) + cos a * cos h * (cos a * cos h))).
    rewrite hypot_sunDirection by exact Hc.
    apply Ratan2_cos_pos; assumption. }
  split; [exact Hyaw | split; [exact Hpitch |]].
  unfold trackingYawPitch. rewrite Hyaw, Hpitch.
  assert (Hn : isNight (sunDirection a h) = Rltb h 0).
  { rewrite sunDirection_R. unfold isNight; cbn [vy].
    change (js_lt (sin h) (js_lit 0)) with (Rltb (sin h) 0).
    pose proof (sin_neg_iff h Hh) as E.
    destruct (Rltb h 0) eqn:Hb.
    - apply Rltb_true. apply E. apply Rltb_true. exact Hb.
    - apply Rltb_false. intros Hs. apply E in Hs.
      apply Rltb_true in Hs. congruence. }
  rewrite Hn. destruct (Rltb h 0).
  - rewrite stow_pitch_R. reflexivity.
  - reflexivity.
Qed.

Lemma tracking_aims_at_sun_witness :
  (- PI < 0 <= PI /\ - (PI / 2) < 0 < PI / 2) /\
  let d := sunDirection 0 0 in
  yawTarget d = 0 /\ pitchTarget d = 0 /\
  trackingYawPitch d =
    (clamp 0 (yawMin LIMITS) (yawMax LIMITS),
     if Rltb 0 0 then 5 * (PI / 180) else clamp 0 (pitchMin LIMITS) (pitchMax LIMITS)).
Proof.
  pose proof PI_RGT_0.
  assert (Ha : - PI < 0 <= PI) by lra.
  assert (Hh : - (PI / 2) < 0 < PI / 2) by lra.
  split; [split; [exact Ha | exact Hh] |].
  apply (tracking_aims_at_sun 0 0 Ha Hh).
Defined.

(** The orientation state keeps unit quaternions. *)
Definition sessionUnit (st : Session R) : Prop :=
  unitQ (baseQuat st) /\
  match panel st with Some q => unitQ q | None => True end.

(** X3: if the base quaternion and the panel's orientation are unit
    quaternions, they still are after a frame in either mode and after a
    sun-direction update. *)
Theorem frame_preserves_unit (mode : string) (t a h : R) (st : Session R) :
  sessionUnit st ->
  sessionUnit (frame mode t st) /\ sessionUnit (updateSunDir st a h).
Proof.
  intros [Hb Hp]. split.
  - unfold frame. destruct (panel st) as [cur |] eqn:Ep; [| split; [exact Hb | rewrite Ep; exact I]].
    destruct (String.eqb mode "spin").
    + destruct (demoYawPitch t) as [yaw pitch].
      split; cbn [baseQuat panel]; [exact Hb |].
      apply multiply_unit; [exact Hb | apply setFromEuler_unit].
    + destruct (trackingYawPitch (sunDir st)) as [yaw pitch].
      split; cbn [baseQuat panel]; [exact Hb |].
      apply rotateTowards_progress; [exact Hp | | cbn; lra].
      apply multiply_unit; [exact Hb | apply setFromEuler_unit].
  - split; [exact Hb | exact Hp].
Qed.

Lemma frame_preserves_unit_witness :
  sessionUnit (mkSession (mkVector3 0 1 0) identityQ (Some identityQ)) /\
  sessionUnit (frame "sun" 0 (mkSession (mkVector3 0 1 0) identityQ (Some identityQ))) /\
  sessionUnit (updateSunDir (mkSession (mkVector3 0 1 0) identityQ (Some identityQ)) 0 0).
Proof.
  assert (Hu : unitQ identityQ) by (unfold unitQ, identityQ; cbn; ring).
  assert (Hs : sessionUnit (mkSession (mkVector3 0 1 0) identityQ (Some identityQ)))
    by (split; exact Hu).
  split; [exact Hs |].
  apply (frame_preserves_unit "sun" 0 0 0 _ Hs).
Defined.

(** X4: outside the "spin" mode, from a unit panel orientation and a unit
    base, n frames with no sun update in between keep the panel a unit
    quaternion at angle max(0, d - 0.02 n) from the tracking target, d being
    the starting angle; after 158 frames the panel is on the target. *)
Theorem tracking_frames_converge (mode : string) (ts : list R) (st : Session R)
    (cur : Quaternion R) :
  mode <> "spin"%string -> unitQ (baseQuat st) -> panel st = Some cur -> unitQ cur ->
  exists p, panel (frames mode ts st) = Some p /\ unitQ p /\
    angleTo p (trackingTarget st) =
      Rmax 0 (angleTo cur (trackingTarget st) - 0.02 * INR (length ts)) /\
    ((158 <= length ts)%nat -> angleTo p (trackingTarget st) = 0).
Proof.
  intros Hm Hb Hp Hu.
  assert (Ht : unitQ (trackingTarget st)) by (apply trackingTarget_unit; exact Hb).
  assert (Hmain : exists p, panel (frames mode ts st) = Some p /\ unitQ p /\
            angleTo p (trackingTarget st) =
              Rmax 0 (angleTo cur (trackingTarget st) - 0.02 * INR (length ts))).
  { revert st cur Hb Hp Hu Ht. induction ts as [| t ts IH]; intros st cur Hb Hp Hu Ht.
    - exists cur. split; [exact Hp | split; [exact Hu |]].
      pose proof (angleTo_le_PI cur (trackingTarget st) Hu Ht).
      cbn [length INR]. unfold Rmax; destruct Rle_dec; lra.
    - cbn [frames]. rewrite (frame_tracking mode t st cur Hm Hp).
      destruct (rotateTowards_progress cur (trackingTarget st) 0.02 Hu Ht ltac:(lra))
        as [Hu' Hd'].
      set (st' := mkSession (sunDir st) (baseQuat st)
                            (Some (rotateTowards cur (trackingTarget st) 0.02))).
      assert (Et : trackingTarget st' = trackingTarget st) by reflexivity.
      destruct (IH st' (rotateTowards cur (trackingTarget st) 0.02) Hb eq_refl Hu'
                  ltac:(rewrite Et; exact Ht)) as [p [Ep [Hup Hdp]]].
      exists p. split; [exact Ep | split; [exact Hup |]].
      rewrite <- Et, Hdp, Et, Hd'.
      cbn [length]. rewrite S_INR. pose proof (pos_INR (length ts)).
      unfold Rmax; repeat destruct Rle_dec; lra. }
  destruct Hmain as [p [Ep [Hup Hdp]]].
  exists p. split; [exact Ep | split; [exact Hup | split; [exact Hdp |]]].
  intros Hlen. rewrite Hdp.
  pose proof (angleTo_le_PI cur (trackingTarget st) Hu Ht).
  pose proof PI_lt_316.
  apply le_INR in Hlen. replace (INR 158) with 158 in Hlen
    by (rewrite INR_IZR_INZ; reflexivity).
  unfold Rmax; destruct Rle_dec; lra.
Qed.

Lemma tracking_frames_converge_witness :
  ("sun" <> "spin")%string /\ unitQ identityQ /\ unitQ identityQ /\
  exists p, panel (frames "sun" [0; 1] (mkSession (mkVector3 0 1 0) identityQ (Some identityQ)))
              = Some p /\ unitQ p /\
    angleTo p (trackingTarget (mkSession (mkVector3 0 1 0) identityQ (Some identityQ))) =
      Rmax 0 (angleTo identityQ
                (trackingTarget (mkSession (mkVector3 0 1 0) identityQ (Some identityQ)))
              - 0.02 * INR (length [0; 1])) /\
    ((158 <= length [0; 1])%nat ->
     angleTo p (trackingTarget (mkSession (mkVector3 0 1 0) identityQ (Some identityQ))) = 0).
Proof.
  assert (Hu : unitQ identityQ) by (unfold unitQ, identityQ; cbn; ring).
  assert (Hm : ("sun" <> "spin")%string) by discriminate.
  split; [exact Hm | split; [exact Hu | split; [exact Hu |]]].
  apply (tracking_frames_converge "sun" [0; 1]
           (mkSession (mkVector3 0 1 0) identityQ (Some identityQ)) identityQ Hm Hu eq_refl Hu).
Defined.

(* ========================================================================= *)
(** * App: the panel-mode button *)

(** [useState("spin")] and the button's [onClick] and label. *)
Definition initialMode : string := "spin".
Definition toggleMode (mode : string) : string :=
  if String.eqb mode "sun" then "spin" else "sun".
Definition modeButtonLabel (mode : string) : string :=
  if String.eqb mode "sun" then "Switch to Dual-Axis Tilt" else "Switch to Sun Tracking".

(* ========================================================================= *)
(** * frameCameraToObject and FitOnceOnMount *)

(** These run on the reals; Math.tan is [tan]. *)

(** Box3, with its [isEmpty], [getSize] and [getCenter]. *)
Record Box3 := mkBox3 { bmin : Vector3 R; bmax : Vector3 R }.

Definition boxIsEmpty (b : Box3) : bool :=
  Rltb (vx (bmax b)) (vx (bmin b)) || Rltb (vy (bmax b)) (vy (bmin b)) ||
  Rltb (vz (bmax b)) (vz (bmin b)).
Definition boxGetSize (b : Box3) : Vector3 R :=
  if boxIsEmpty b then mkVector3 0 0 0
  else mkVector3 (vx (bmax b) - vx (bmin b)) (vy (bmax b) - vy (bmin b))
                 (vz (bmax b) - vz (bmin b)).
Definition boxGetCenter (b : Box3) : Vector3 R :=
  if boxIsEmpty b then mkVector3 0 0 0
  else multiplyScalar (mkVector3 (vx (bmin b) + vx (bmax b)) (vy (bmin b) + vy (bmax b))
                                 (vz (bmin b) + vz (bmax b))) 0.5.

Definition vadd (a b : Vector3 R) : Vector3 R :=
  mkVector3 (vx a + vx b) (vy a + vy b) (vz a + vz b).

(** The parts of the camera and of the OrbitControls the code writes. *)
Record Camera := mkCamera { camPos : Vector3 R; camFov : R; camNear : R; camFar : R }.
Record Controls := mkControls { ctlTarget : Vector3 R; minDistance : R; maxDistance : R }.

(** [Math.max(size.x, size.y, size.z) || 1] *)
Definition fitMaxDim (box : Box3) : R :=
  let size := boxGetSize box in
  let m := Rmax (Rmax (vx size) (vy size)) (vz size) in
  if js_truthy m then m else 1.

Section FitCamera.

(** [controls.update()] is OrbitControls' own method: it moves the camera
    (its distance is clamped into [minDistance, maxDistance], pending and
    automatic rotation and damping are applied, the camera is turned to the
    target) from internal state of the controls this model does not track,
    so it is a parameter: the camera and controls it leaves, given the ones
    it is called on. *)
Variable controlsUpdate : Camera -> Controls -> Camera * Controls.

(** frameCameraToObject(camera, controls, object, factor), with [box] the
    Box3 of [object]; [controls] is [None] when falsy.  The projection-matrix
    update only recomputes the matrix from fov, near and far and is left
    out. *)
Definition frameCameraToObject (camera : Camera) (controls : option Controls)
    (box : Box3) (factor : R) : Camera * option Controls :=
  let center := boxGetCenter box in
  let maxDim := fitMaxDim box in
  let fov := camFov camera * PI / 180 in
  let distance := Rabs (maxDim / (2 * tan (fov / 2))) * factor in
  let camera' := mkCamera (vadd center (mkVector3 distance 0 0))
                          (camFov camera) (camNear camera) (camFar camera) in
  match controls with
  | Some _ =>
    let controls' := mkControls center (maxDim * 0.6) (Rmin (maxDim * 6.0) 200) in
    let '(camera'', controls'') := controlsUpdate camera' controls' in
    (camera'', Some controls'')
  | None => (camera', None)
  end.

(** FitOnceOnMount: the [didFit] ref, the camera and the default controls;
    one run of the effect, with [target] the Box3 of [targetRef.current]
    ([None] while the ref is unset). *)
Record FitState := mkFitState { didFit : bool; fitCamera : Camera; fitControls : option Controls }.

Definition fitEffect (target : option Box3) (s : FitState) : FitState :=
  match target with
  | Some box =>
    if negb (didFit s) then
      let cam := fitCamera s in
      let cam1 := mkCamera (camPos cam) (camFov cam) 0.1 10000 in
      let '(cam2, ctl2) := frameCameraToObject cam1 (fitControls s) box 2 in
      mkFitState true cam2 ctl2
    else s
  | None => s
  end.

Fixpoint fitEffects (runs : list (option Box3)) (s : FitState) : FitState :=
  match runs with
  | nil => s
  | r :: runs' => fitEffects runs' (fitEffect r s)
  end.

End FitCamera.

(* ========================================================================= *)
(** * applyRealisticMaterials *)

From Stdlib Require Import Ascii.

(** String.prototype.toLowerCase on ASCII names and String.prototype.includes. *)
Definition toLowerAscii (c : ascii) : ascii :=
  let n := nat_of_ascii c in
  if (65 <=? n)%nat && (n <=? 90)%nat then ascii_of_nat (n + 32) else c.

Fixpoint toLowerCase (s : string) : string :=
  match s with
  | EmptyString => EmptyString
  | String c s' => String (toLowerAscii c) (toLowerCase s')
  end.

Fixpoint includes (s pat : string) : bool :=
  String.prefix pat s ||
  match s with
  | EmptyString => false
  | String _ s' => includes s' pat
  end.

(** Materials, with the parameters the code sets; textures are object
    identities.  Unset parameters take the three.js defaults (color white,
    roughness 1, bumpScale 1, envMapIntensity 1, no map, no clearcoat). *)
Record Material := mkMaterial {
  mtype : string;
  color : string;
  metalness : R;
  roughness : R;
  matMap : option nat;
  bumpMap : option nat;
  bumpScale : R;
  envMapIntensity : R;
  clearcoat : R;
  clearcoatRoughness : R
}.

Local Set Warnings "-register-all".
Inductive Object3D := mkObject3D {
  isMesh : bool;
  name : option string;
  castShadow : bool;
  receiveShadow : bool;
  material : Material;
  children : list Object3D
}.

(** The material chosen for a mesh whose lowercased name is [meshName];
    [tex] is the CanvasTexture made once per call. *)
Definition materialFor (tex : nat) (meshName : string) (old : Material) : Material :=
  if includes meshName "solpanel_steel_0" then
    mkMaterial "MeshPhysicalMaterial" "#c9cdd3" 0.95 0.35 None (Some tex) 1.6 1.15 0.8 0.1
  else if includes meshName "cylinder001_steel_0" || includes meshName "cylinder002_steel_0" then
    mkMaterial "MeshStandardMaterial" "#8e949a" 0.9 0.55 None None 1 1.0 0 0
  else if includes meshName "picture" then
    mkMaterial "MeshPhysicalMaterial" "#ffffff" 0.0 0.08 (matMap old) None 1 1.1 1.0 0.03
  else old.

(** The traverse callback on one object. *)
Definition visitObject (tex : nat) (o : Object3D) : Object3D :=
  if negb (isMesh o) then o else
  let meshName := toLowerCase (match name o with Some s => s | None => ""%string end) in
  mkObject3D (isMesh o) (name o) true true (materialFor tex meshName (material o)) (children o).

(** root.traverse(callback): the callback on the object, then on its
    descendants in order. *)
Fixpoint traverseVisit (tex : nat) (o : Object3D) : Object3D :=
  match o with
  | mkObject3D m n cs rs mat ch =>
    let o' := visitObject tex o in
    mkObject3D (isMesh o') (name o') (castShadow o') (receiveShadow o') (material o')
               (List.map (traverseVisit tex) ch)
  end.

Definition applyRealisticMaterials (tex : nat) (root : Object3D) : Object3D :=
  traverseVisit tex root.

(** The objects of a tree in traversal order. *)
Fixpoint nodes (o : Object3D) : list Object3D :=
  match o with
  | mkObject3D _ _ _ _ _ ch => o :: List.concat (List.map nodes ch)
  end.

(* ========================================================================= *)
(** * makeBrushedWithLinesTexture *)

(** The drawing calls made on the 2D context. *)
Inductive CanvasOp :=
| SetFillStyle (s : string)
| FillRect (x y w h : R)
| SetGlobalAlpha (a : R)
| SetStrokeStyle (s : string)
| SetStrokeRGB (r g b : R)        (* strokeStyle = `rgb(${r},${g},${b})` *)
| BeginPath
| MoveTo (x y : R)
| LineTo (x y : R)
| SetLineWidth (w : R)
| Stroke.

(** Setting [canvas.width] or [canvas.height]: the value is converted to
    an unsigned long (truncated toward zero, modulo 2^32) and the reflected
    attribute takes its default (300 for width, 150 for height) when that
    is above 2147483647. *)
Definition Rtrunc (x : R) : Z := if Rle_dec 0 x then Zfloor x else Zceil x.

Definition toUnsignedLong (x : R) : Z := Z.modulo (Rtrunc x) (2 ^ 32).

Definition setCanvasDim (default : Z) (x : R) : Z :=
  let v := toUnsignedLong x in
  if Z.leb v 2147483647 then v else default.

Record CanvasTexture := mkCanvasTexture {
  canvasWidth : Z;
  canvasHeight : Z;
  ops : list CanvasOp;
  colorSpace : string;
  wrapS : string;
  wrapT : string;
  texRepeat : R * R
}.

(** The options object after destructuring with its defaults. *)
Record TextureOptions := mkTextureOptions {
  optSize : option R; optNoise : option R; optStreaks : option R; optRepeat : option R;
  optBands : option R; optLineStrength : option R; optLineWidth : option R
}.

Definition withDefault (o : option R) (d : R) : R :=
  match o with Some v => v | None => d end.

(** [rand k] is the value of the k-th call of Math.random during the call. *)
Definition streakOps (size noise : R) (lines : Z) (rand : nat -> R) (i : nat) : list CanvasOp :=
  let jitter := (rand i - 0.5) * noise * 6.0 in
  let y := IZR (Zfloor (INR i / IZR lines * size)) in
  [BeginPath; MoveTo 0 (y + jitter); LineTo size (y - jitter); SetLineWidth 1; Stroke].

Definition seamOps (size spacing : R) (i : nat) : list CanvasOp :=
  let y := IZR (Zfloor (INR i * spacing)) in
  [BeginPath; MoveTo 0 y; LineTo size y; Stroke].

Definition makeBrushedWithLinesTexture (opts : TextureOptions) (rand : nat -> R) : CanvasTexture :=
  let size := withDefault (optSize opts) 512 in
  let noise := withDefault (optNoise opts) 0.3 in
  let streaks := withDefault (optStreaks opts) 1.2 in
  let rep := withDefault (optRepeat opts) 8 in
  let bands := withDefault (optBands opts) 5 in
  let lineStrength := withDefault (optLineStrength opts) 110 in
  let lineWidth := withDefault (optLineWidth opts) 3 in
  let lines := Zfloor (size * 2.0 * streaks) in
  (* for (let i = 0; i < lines; i++) *)
  let streakLoop := List.concat (List.map (streakOps size noise lines rand)
                                          (List.seq 0 (Z.to_nat lines))) in
  let seam := 128 - Rmax 0 (Rmin 127 lineStrength) in
  let spacing := size / bands in
  (* for (let i = 1; i < bands; i++): the integers 1 .. ceil(bands) - 1 *)
  let seamLoop := List.concat (List.map (seamOps size spacing)
                                        (List.seq 1 (Z.to_nat (Zceil bands - 1)))) in
  (* c.width = c.height = size *)
  mkCanvasTexture (setCanvasDim 300 size) (setCanvasDim 150 size)
    ([SetFillStyle "#808080"; FillRect 0 0 size size;
      SetGlobalAlpha 0.08; SetStrokeStyle "#a0a0a0"] ++ streakLoop ++
     [SetGlobalAlpha 1.0; SetStrokeRGB seam seam seam; SetLineWidth lineWidth] ++ seamLoop)
    "LinearSRGBColorSpace" "RepeatWrapping" "RepeatWrapping" (rep, rep).

(** The options passed by applyRealisticMaterials. *)
Definition materialTextureOptions : TextureOptions :=
  mkTextureOptions None (Some 0.3) (Some 1.2) (Some 8) (Some 5) (Some 110) (Some 3).

(* ========================================================================= *)
(** * Properties of the App controls, the camera fit, the materials and the
      bump texture *)

Module SceneFacts.

Lemma tan_fov50_bounds : 0.4 < tan (50 * PI / 180 / 2) < 0.5.
Proof.
  pose proof PI_gt_3046. pose proof PI_lt_316.
  set (x := 50 * PI / 180 / 2).
  assert (Hx : 0.423 < x < 0.439) by (unfold x; lra).
  destruct (sin_bound x 0 ltac:(lra) ltac:(lra)) as [Hs1 _].
  destruct (cos_bound x 0 ltac:(lra) ltac:(lra)) as [Hc1 _].
  unfold sin_approx, sin_term, cos_approx, cos_term in *. simpl in Hs1, Hc1.
  pose proof (SIN_bound x) as [_ Hs2]. pose proof (COS_bound x) as [_ Hc2].
  assert (Hsx : sin x < x) by (apply sin_lt_x; lra).
  unfold tan. split.
  - apply (Rmult_lt_reg_r (cos x)); [nra |].
    unfold Rdiv; rewrite Rmult_assoc, Rinv_l by nra. nra.
  - apply (Rmult_lt_reg_r (cos x)); [nra |].
    unfold Rdiv; rewrite Rmult_assoc, Rinv_l by nra. nra.
Qed.

Lemma fitMaxDim_pos (box : Box3) :
  0 < fitMaxDim box /\ (boxIsEmpty box = true -> fitMaxDim box = 1).
Proof.
  unfold fitMaxDim, boxGetSize.
  destruct (boxIsEmpty box) eqn:He.
  - cbn -[Rmax]. replace (Rmax (Rmax 0 0) 0) with 0 by (unfold Rmax; repeat destruct Rle_dec; lra).
    change (js_truthy 0) with (negb (Reqb 0 0)).
    replace (Reqb 0 0) with true by (symmetry; apply Reqb_true; reflexivity).
    cbn. split; [lra | reflexivity].
  - split; [| discriminate].
    unfold boxIsEmpty in He. apply orb_false_iff in He as [He Hz].
    apply orb_false_iff in He as [Hx Hy].
    apply Rltb_false in Hx, Hy, Hz.
    cbn [vx vy vz].
    set (M := Rmax (Rmax (vx (bmax box) - vx (bmin box)) (vy (bmax box) - vy (bmin box)))
                   (vz (bmax box) - vz (bmin box))).
    assert (HM : 0 <= M) by (unfold M, Rmax; repeat destruct Rle_dec; lra).
    change (js_truthy M) with (negb (Reqb M 0)).
    destruct (Reqb M 0) eqn:E; cbn.
    + lra.
    + assert (M <> 0) by (intros E'; apply Reqb_true in E'; congruence). lra.
Qed.

(** Induction on object trees. *)
Fixpoint Object3D_ind' (P : Object3D -> Prop)
    (Hnode : forall m n c r mat ch, Forall P ch -> P (mkObject3D m n c r mat ch))
    (o : Object3D) : P o :=
  match o with
  | mkObject3D m n c r mat ch =>
    Hnode m n c r mat ch
      ((fix go (l : list Object3D) : Forall P l :=
          match l with
          | nil => Forall_nil P
          | x :: l' => Forall_cons x (Object3D_ind' P Hnode x) (go l')
          end) ch)
  end.

Lemma visitObject_children (tex : nat) (o : Object3D) : children (visitObject tex o) = children o.
Proof. unfold visitObject; destruct (isMesh o); reflexivity. Qed.

Lemma traverseVisit_node (tex : nat) (m : bool) n c r mat ch :
  traverseVisit tex (mkObject3D m n c r mat ch) =
  let o' := visitObject tex (mkObject3D m n c r mat ch) in
  mkObject3D (isMesh o') (name o') (castShadow o') (receiveShadow o') (material o')
             (List.map (traverseVisit tex) ch).
Proof. reflexivity. Qed.

Lemma Forall2_concat {A B} (Rel : A -> B -> Prop) (ls : list (list A)) (ks : list (list B)) :
  Forall2 (Forall2 Rel) ls ks -> Forall2 Rel (List.concat ls) (List.concat ks).
Proof.
  induction 1; cbn; [constructor | apply Forall2_app; assumption].
Qed.

Lemma materialFor_twice (tex1 tex2 : nat) (s : string) (old : Material) :
  materialFor tex2 s (materialFor tex1 s old) = materialFor tex2 s old.
Proof.
  unfold materialFor.
  destruct (includes s "solpanel_steel_0"); [reflexivity |].
  destruct (includes s "cylinder001_steel_0" || includes s "cylinder002_steel_0"); [reflexivity |].
  destruct (includes s "picture"); reflexivity.
Qed.

Lemma streak_y_range (size : R) (lines : Z) (i : nat) :
  0 < size -> (Z.of_nat i < lines)%Z ->
  0 <= IZR (Zfloor (INR i / IZR lines * size)) < size.
Proof.
  intros Hs Hi.
  assert (Hl : 0 < IZR lines) by (apply IZR_lt; lia).
  assert (Hil : INR i < IZR lines)
    by (rewrite INR_IZR_INZ; apply IZR_lt; exact Hi).
  pose proof (pos_INR i).
  assert (Hq : 0 <= INR i / IZR lines < 1).
  { split; [unfold Rdiv; apply Rmult_le_pos; [lra | left; apply Rinv_0_lt_compat; lra] |].
    apply (Rmult_lt_reg_r (IZR lines)); [lra |].
    unfold Rdiv; rewrite Rmult_assoc, Rinv_l by lra. lra. }
  pose proof (Zfloor_bound (INR i / IZR lines * size)) as Hb.
  split.
  - apply IZR_le. apply Zfloor_lub. cbn. nra.
  - nra.
Qed.

Lemma seam_y_range (size bands : R) (i : nat) :
  0 < size -> (1 <= i)%nat -> (Z.of_nat i < Zceil bands)%Z ->
  0 <= IZR (Zfloor (INR i * (size / bands))) < size.
Proof.
  intros Hs Hi1 Hi.
  pose proof (Zceil_bound bands) as [Hc _].
  assert (Hib : INR i < bands).
  { assert (INR i <= IZR (Zceil bands) - 1).
    { rewrite INR_IZR_INZ. rewrite <- minus_IZR. apply IZR_le. lia. }
    lra. }
  assert (H1 : 1 <= INR i) by (apply (le_INR 1); exact Hi1).
  assert (Hq : 0 <= INR i * (size / bands) < size).
  { split.
    - apply Rmult_le_pos; [lra | unfold Rdiv; apply Rmult_le_pos; [lra | left; apply Rinv_0_lt_compat; lra]].
    - replace (INR i * (size / bands)) with (size * (INR i / bands)) by (field; lra).
      assert (INR i / bands < 1).
      { apply (Rmult_lt_reg_r bands); [lra |].
        unfold Rdiv; rewrite Rmult_assoc, Rinv_l by lra. lra. }
      assert (0 <= INR i / bands) by (unfold Rdiv; apply Rmult_le_pos; [lra | left; apply Rinv_0_lt_compat; lra]).
      nra. }
  pose proof (Zfloor_bound (INR i * (size / bands))) as Hb.
  split.
  - apply IZR_le. apply Zfloor_lub. cbn. lra.
  - lra.
Qed.

End SceneFacts.
Import SceneFacts.

(** X5: after n clicks of the mode button from the initial state the mode is
    "spin" for even n and "sun" for odd n, and the button reads "Switch to
    Sun Tracking" exactly when the frame callback runs its "spin" branch. *)
Theorem mode_button_consistent (n : nat) :
  let mode := Nat.iter n toggleMode initialMode in
  mode = (if Nat.even n then "spin" else "sun")%string /\
  (modeButtonLabel mode = "Switch to Sun Tracking"%string <-> String.eqb mode "spin" = true).
Proof.
  cbv zeta.
  assert (Hm : Nat.iter n toggleMode initialMode =
               (if Nat.even n then "spin" else "sun")%string).
  { induction n as [| n IH]; [reflexivity |].
    rewrite Nat.iter_succ, IH, Nat.even_succ, <- Nat.negb_even.
    destruct (Nat.even n); reflexivity. }
  rewrite Hm. split; [reflexivity |].
  destruct (Nat.even n); cbn; split; congruence.
Qed.

(** X6: for the fit of FitOnceOnMount (fov 50, factor 2) the box's largest
    dimension m is positive (1 for an empty box) and the camera is placed at
    distance d = m / tan(25 deg) from the box center along +x, with
    0.6 m <= d <= 6 m.  Without controls that is where the camera stays;
    with controls, [controls.update()] is then called on that camera and on
    controls with the center as target, minDistance 0.6 m and maxDistance
    min(6 m, 200).  d is within maxDistance for m <= 80 and beyond it for
    m >= 100; minDistance <= maxDistance iff m <= 1000/3. *)
Theorem fit_camera_distance (upd : Camera -> Controls -> Camera * Controls)
    (cam : Camera) (ctl : option Controls) (box : Box3) :
  camFov cam = 50 ->
  let m := fitMaxDim box in
  let d := m / tan (50 * PI / 180 / 2) in
  let placed := mkCamera (vadd (boxGetCenter box) (mkVector3 d 0 0))
                         (camFov cam) (camNear cam) (camFar cam) in
  let ctlSet := mkControls (boxGetCenter box) (m * 0.6) (Rmin (m * 6.0) 200) in
  0 < m /\ (boxIsEmpty box = true -> m = 1) /\
  0.6 * m <= d <= 6 * m /\
  frameCameraToObject upd cam ctl box 2 =
    match ctl with
    | None => (placed, None)
    | Some _ => let '(cam', ctl') := upd placed ctlSet in (cam', Some ctl')
    end /\
  (m <= 80 -> d <= Rmin (m * 6.0) 200) /\
  (100 <= m -> Rmin (m * 6.0) 200 < d) /\
  (m * 0.6 <= Rmin (m * 6.0) 200 <-> m <= 1000 / 3).
Proof.
  intros Hfov m d placed ctlSet.
  destruct (fitMaxDim_pos box) as [Hm Hempty]. fold m in Hm, Hempty.
  pose proof tan_fov50_bounds as Ht.
  set (t := tan (50 * PI / 180 / 2)) in *.
  assert (Hd : Rabs (m / (2 * t)) * 2 = d).
  { unfold d. rewrite Rabs_right.
    - field; lra.
    - apply Rle_ge. unfold Rdiv; apply Rmult_le_pos; [lra | left; apply Rinv_0_lt_compat; lra]. }
  assert (Hdm : d * t = m) by (unfold d; field; lra).
  split; [exact Hm | split; [exact Hempty |]].
  split; [split; nra |].
  split.
  { unfold placed, ctlSet, frameCameraToObject. cbv zeta. rewrite Hfov.
    fold m t. rewrite Hd. destruct ctl; reflexivity. }
  split; [intros Hle; unfold Rmin; destruct Rle_dec; nra |].
  split; [intros Hge; unfold Rmin; destruct Rle_dec; nra |].
  unfold Rmin; destruct Rle_dec; split; intros; lra.
Qed.

Lemma fit_camera_distance_witness :
  let upd := fun (c : Camera) (k : Controls) => (c, k) in
  let cam := mkCamera (mkVector3 0 1.5 8) 50 0.1 10000 in
  let box := mkBox3 (mkVector3 (-1) 0 (-1)) (mkVector3 1 2 1) in
  camFov cam = 50 /\
  let m := fitMaxDim box in
  let d := m / tan (50 * PI / 180 / 2) in
  let placed := mkCamera (vadd (boxGetCenter box) (mkVector3 d 0 0))
                         (camFov cam) (camNear cam) (camFar cam) in
  let ctlSet := mkControls (boxGetCenter box) (m * 0.6) (Rmin (m * 6.0) 200) in
  0 < m /\ (boxIsEmpty box = true -> m = 1) /\
  0.6 * m <= d <= 6 * m /\
  frameCameraToObject upd cam None box 2 = (placed, None) /\
  (m <= 80 -> d <= Rmin (m * 6.0) 200) /\
  (100 <= m -> Rmin (m * 6.0) 200 < d) /\
  (m * 0.6 <= Rmin (m * 6.0) 200 <-> m <= 1000 / 3).
Proof.
  cbv zeta.
  split; [reflexivity |].
  apply (fit_camera_distance (fun (c : Camera) (k : Controls) => (c, k))
           (mkCamera (mkVector3 0 1.5 8) 50 0.1 10000) None
           (mkBox3 (mkVector3 (-1) 0 (-1)) (mkVector3 1 2 1))).
  reflexivity.
Defined.

(** X7: the FitOnceOnMount effect fits the camera at most once: once
    [didFit] is set no run changes anything; before, runs without a target
    change nothing and the first run with a target does the fit and sets
    [didFit]. *)
Theorem fitEffects_once (upd : Camera -> Controls -> Camera * Controls)
    (runs : list (option Box3)) (s : FitState) :
  (didFit s = true -> fitEffects upd runs s = s) /\
  (didFit s = false ->
     (Forall (fun r => r = None) runs -> fitEffects upd runs s = s) /\
     (forall pre box post,
        Forall (fun r => r = None) pre -> runs = pre ++ Some box :: post ->
        fitEffects upd runs s = fitEffect upd (Some box) s /\
        didFit (fitEffect upd (Some box) s) = true)).
Proof.
  assert (Hdone : forall rs st, didFit st = true -> fitEffects upd rs st = st).
  { induction rs as [| r rs IH]; intros st Hst; [reflexivity |].
    cbn [fitEffects].
    replace (fitEffect upd r st) with st by (unfold fitEffect; destruct r; rewrite ?Hst; reflexivity).
    apply IH; exact Hst. }
  assert (Hnone : forall rs st, Forall (fun r => r = None) rs -> fitEffects upd rs st = st).
  { induction rs as [| r rs IH]; intros st Hall; [reflexivity |].
    inversion Hall as [| ? ? Hr Hrs]; subst. cbn [fitEffects fitEffect]. apply IH; exact Hrs. }
  assert (Hfit : forall box st, didFit st = false -> didFit (fitEffect upd (Some box) st) = true).
  { intros box st Hst. unfold fitEffect. rewrite Hst. cbn.
    destruct (frameCameraToObject _ _ _ box 2); reflexivity. }
  split; [apply Hdone |].
  intros Hs. split; [apply Hnone |].
  intros pre box post Hpre ->.
  split; [| apply Hfit; exact Hs].
  induction pre as [| r pre IH]; cbn [app fitEffects].
  - apply Hdone, Hfit, Hs.
  - inversion Hpre as [| ? ? Hr Hrs]; subst. cbn [fitEffect]. apply IH; exact Hrs.
Qed.

(** X8: applyRealisticMaterials visits every object of the tree in traversal
    order and keeps the tree's shape, names and mesh flags; non-mesh objects
    are unchanged; every mesh at any depth casts and receives shadows and
    gets the material chosen from its lowercased name ("" when unnamed). *)
Theorem applyRealisticMaterials_all_nodes (tex : nat) (root : Object3D) :
  Forall2
    (fun o o' =>
       isMesh o' = isMesh o /\ name o' = name o /\
       length (children o') = length (children o) /\
       (isMesh o = false ->
          castShadow o' = castShadow o /\ receiveShadow o' = receiveShadow o /\
          material o' = material o) /\
       (isMesh o = true ->
          castShadow o' = true /\ receiveShadow o' = true /\
          material o' = materialFor tex
                          (toLowerCase (match name o with Some s => s | None => ""%string end))
                          (material o)))
    (nodes root) (nodes (applyRealisticMaterials tex root)).
Proof.
  unfold applyRealisticMaterials.
  induction root as [m n c r mat ch IH] using Object3D_ind'.
  rewrite traverseVisit_node. cbv zeta.
  cbn [nodes]. constructor.
  - unfold visitObject; cbn [isMesh name children castShadow receiveShadow material].
    destruct m; cbn; rewrite List.length_map; repeat split; try reflexivity; discriminate.
  - apply Forall2_concat. rewrite List.map_map.
    induction IH as [| x l Hx Hl IHl]; cbn; constructor; assumption.
Qed.

(** X9: running applyRealisticMaterials twice gives the same tree as the
    second run alone: the picture meshes keep their original texture map and
    only the panel's bump texture is replaced. *)
Theorem applyRealisticMaterials_rerun (tex1 tex2 : nat) (root : Object3D) :
  applyRealisticMaterials tex2 (applyRealisticMaterials tex1 root) =
  applyRealisticMaterials tex2 root.
Proof.
  unfold applyRealisticMaterials.
  induction root as [m n c r mat ch IH] using Object3D_ind'.
  cbn [traverseVisit]. unfold visitObject.
  destruct m; cbn [negb isMesh name castShadow receiveShadow material children].
  - rewrite materialFor_twice, List.map_map. f_equal.
    apply List.map_ext_Forall. exact IH.
  - rewrite List.map_map. f_equal.
    apply List.map_ext_Forall. exact IH.
Qed.

(** X10: the seam stroke colour of makeBrushedWithLinesTexture is a gray
    rgb(s, s, s) with 1 <= s <= 128 for every lineStrength, s = 128 -
    lineStrength when lineStrength is in [0, 127], and s = 18 for the
    options applyRealisticMaterials passes. *)
Theorem texture_seam_shade (opts : TextureOptions) (rand : nat -> R) :
  let tex := makeBrushedWithLinesTexture opts rand in
  Forall (fun op => match op with
                    | SetStrokeRGB r g b => r = g /\ g = b /\ 1 <= r <= 128
                    | _ => True
                    end) (ops tex) /\
  (0 <= withDefault (optLineStrength opts) 110 <= 127 ->
     let s := 128 - withDefault (optLineStrength opts) 110 in
     In (SetStrokeRGB s s s) (ops tex)) /\
  In (SetStrokeRGB 18 18 18) (ops (makeBrushedWithLinesTexture materialTextureOptions rand)).
Proof.
  assert (Hshape : forall o,
    let seam := 128 - Rmax 0 (Rmin 127 (withDefault (optLineStrength o) 110)) in
    In (SetStrokeRGB seam seam seam) (ops (makeBrushedWithLinesTexture o rand))).
  { intros o seam. unfold makeBrushedWithLinesTexture; cbn [ops].
    apply in_or_app; right. apply in_or_app; right. apply in_or_app; left.
    right; left; reflexivity. }
  cbv zeta. split; [| split].
  - unfold makeBrushedWithLinesTexture; cbn [ops].
    repeat (apply Forall_app; split).
    + repeat constructor.
    + apply Forall_concat, Forall_map, Forall_forall. intros i _. repeat constructor.
    + apply Forall_cons; [exact I |]. apply Forall_cons; [| apply Forall_cons; [exact I | apply Forall_nil]].
      split; [reflexivity | split; [reflexivity |]].
      unfold Rmax, Rmin; repeat destruct Rle_dec; lra.
    + apply Forall_concat, Forall_map, Forall_forall. intros i _. repeat constructor.
  - intros Hls. pose proof (Hshape opts) as H. cbv zeta in H.
    replace (Rmax 0 (Rmin 127 (withDefault (optLineStrength opts) 110)))
      with (withDefault (optLineStrength opts) 110) in H
      by (unfold Rmax, Rmin; repeat destruct Rle_dec; lra).
    exact H.
  - pose proof (Hshape materialTextureOptions) as H. cbv zeta in H.
    replace (128 - Rmax 0 (Rmin 127 (withDefault (optLineStrength materialTextureOptions) 110)))
      with 18 in H by (cbn; unfold Rmax, Rmin; repeat destruct Rle_dec; lra).
    exact H.
Qed.

(** X11: with a positive size, a non-negative noise and Math.random values
    in [0, 1): for a size below 2^31 the canvas is floor(size) by
    floor(size), which the background fill (0, 0, size, size) covers; every
    line endpoint drawn has x = 0 or x = size and y in
    [-3 noise, size + 3 noise). *)
Theorem texture_strokes_in_canvas (opts : TextureOptions) (rand : nat -> R) :
  let tex := makeBrushedWithLinesTexture opts rand in
  let size := withDefault (optSize opts) 512 in
  let noise := withDefault (optNoise opts) 0.3 in
  0 < size -> 0 <= noise -> (forall k, 0 <= rand k < 1) ->
  (size < 2147483648 ->
     canvasWidth tex = Zfloor size /\ canvasHeight tex = Zfloor size /\
     IZR (Zfloor size) <= size) /\
  Forall (fun op => match op with
                    | MoveTo x y | LineTo x y =>
                        (x = 0 \/ x = size) /\ - (3 * noise) <= y < size + 3 * noise
                    | FillRect x y w h => x = 0 /\ y = 0 /\ w = size /\ h = size
                    | _ => True
                    end) (ops tex).
Proof.
  cbv zeta; intros Hs Hn Hr.
  unfold makeBrushedWithLinesTexture in *; cbn [ops canvasWidth canvasHeight] in *.
  set (size := withDefault (optSize opts) 512) in *.
  set (noise := withDefault (optNoise opts) 0.3) in *.
  split.
  { intros Hbig.
    pose proof (Zfloor_bound size) as [Hf1 Hf2].
    assert (Hf0 : (0 <= Zfloor size)%Z) by (apply Zfloor_lub; cbn; lra).
    assert (Hf3 : (Zfloor size <= 2147483647)%Z).
    { apply Z.lt_succ_r, lt_IZR. rewrite succ_IZR. lra. }
    assert (Hdim : forall dflt, setCanvasDim dflt size = Zfloor size).
    { intros dflt. unfold setCanvasDim, toUnsignedLong, Rtrunc.
      destruct (Rle_dec 0 size) as [_ | Hneg]; [| lra].
      rewrite Z.mod_small by lia.
      replace (Z.leb (Zfloor size) 2147483647) with true by (symmetry; apply Z.leb_le; lia).
      reflexivity. }
    rewrite !Hdim. repeat split; lra. }
  repeat (apply Forall_app; split).
  - repeat apply Forall_cons; try apply Forall_nil; cbv beta iota; try exact I.
    repeat split; reflexivity.
  - apply Forall_concat, Forall_map, Forall_forall. intros i Hi.
    apply in_seq in Hi.
    set (lines := Zfloor (size * 2.0 * withDefault (optStreaks opts) 1.2)) in *.
    assert (Hil : (Z.of_nat i < lines)%Z) by lia.
    pose proof (streak_y_range size lines i Hs Hil) as Hy.
    pose proof (Hr i) as Hri.
    unfold streakOps. cbv zeta.
    repeat apply Forall_cons; try apply Forall_nil; cbv beta iota; try exact I;
      (split; [(left; reflexivity) || (right; reflexivity) | nra]).
  - repeat apply Forall_cons; try apply Forall_nil; cbv beta iota; exact I.
  - apply Forall_concat, Forall_map, Forall_forall. intros i Hi.
    apply in_seq in Hi.
    set (bands := withDefault (optBands opts) 5) in *.
    assert (Hib : (Z.of_nat i < Zceil bands)%Z) by lia.
    pose proof (seam_y_range size bands i Hs ltac:(lia) Hib) as Hy.
    unfold seamOps. cbv zeta.
    repeat apply Forall_cons; try apply Forall_nil; cbv beta iota; try exact I;
      (split; [(left; reflexivity) || (right; reflexivity) | nra]).
Qed.

Lemma texture_strokes_in_canvas_witness :
  let tex := makeBrushedWithLinesTexture materialTextureOptions (fun _ => 0) in
  let size := withDefault (optSize materialTextureOptions) 512 in
  let noise := withDefault (optNoise materialTextureOptions) 0.3 in
  (0 < size /\ 0 <= noise /\ (forall k : nat, 0 <= (fun _ => 0) k < 1)) /\
  (size < 2147483648 ->
     canvasWidth tex = Zfloor size /\ canvasHeight tex = Zfloor size /\
     IZR (Zfloor size) <= size) /\
  Forall (fun op => match op with
                    | MoveTo x y | LineTo x y =>
                        (x = 0 \/ x = size) /\ - (3 * noise) <= y < size + 3 * noise
                    | FillRect x y w h => x = 0 /\ y = 0 /\ w = size /\ h = size
                    | _ => True
                    end) (ops tex).
Proof.
  cbv zeta.
  assert (H1 : 0 < withDefault (optSize materialTextureOptions) 512) by (cbn; lra).
  assert (H2 : 0 <= withDefault (optNoise materialTextureOptions) 0.3) by (cbn; lra).
  assert (H3 : forall k : nat, 0 <= (fun _ : nat => 0) k < 1) by (intros k; cbn; lra).
  split; [split; [exact H1 | split; [exact H2 | exact H3]] |].
  apply (texture_strokes_in_canvas materialTextureOptions (fun _ => 0) H1 H2 H3).
Defined.
